(** * greenlight-api: tokens, validation and the versioned movie store

    A shallow embedding of the Go packages [internal/validator] and
    [internal/data] (movies, runtime, tokens, the error sentinels), together
    with the parts of the Go standard library and of the SQL store that these
    packages call.  Go strings and byte slices are byte strings ([string],
    one [ascii] per byte), Go's fixed-width integers are [Z] with the
    wrap-around written out, a Go [map] is a [gmap], and the [error]
    interface is [option error] with [None] for [nil]. *)

From Stdlib Require Import ZArith List String Ascii Bool Lia.
From stdpp Require Import base gmap strings list sorting.

Local Open Scope Z_scope.

(* ===================================================================== *)
(** ** Package [errors] *)
(* ===================================================================== *)

Module errors.

(** Error values are pointers: two of them are [==] exactly when they have
    the same dynamic type and are the same allocation.  [errorString] is
    the type behind [errors.New]; [foreign] stands for the error types of
    the driver, of [context] and of the operating system, which these
    packages only pass on. *)
Inductive kind := errorString | foreign.

Record error := mkError { err_kind : kind; err_addr : positive; err_text : string }.

(** The allocator threaded through package initialisation: the next free
    address. *)
Definition heap := positive.

Definition New (text : string) (h : heap) : error * heap :=
  (mkError errorString h text, Pos.succ h).

(** The [Error()] method. *)
Definition Error (e : error) : string := err_text e.

Definition kind_eqb (a b : kind) : bool :=
  match a, b with
  | errorString, errorString | foreign, foreign => true
  | _, _ => false
  end.

(** Interface equality [err == target]. *)
Definition same (a b : option error) : bool :=
  match a, b with
  | None, None => true
  | Some x, Some y => kind_eqb (err_kind x) (err_kind y) && Pos.eqb (err_addr x) (err_addr y)
  | _, _ => false
  end.

(** [errors.Is]: none of the error types met here has an [Is] or an
    [Unwrap] method, so the chain walk stops at the first comparison. *)
Definition Is (err target : option error) : bool := same err target.

End errors.

Abbreviation error := errors.error.

(** Package-level sentinels, in initialisation order: [database/sql] is
    initialised before the package [data] that imports it; inside [data] the
    [var] block of the models file declares [ErrRecordNotFound] before
    [ErrEditConflict]. *)
Record sentinels := mkSentinels {
  s_ErrNoRows : error;
  s_ErrRecordNotFound : error;
  s_ErrEditConflict : error;
  s_ErrInvalidRuntimeFormat : error;
}.

Definition init_packages (h : errors.heap) : sentinels * errors.heap :=
  let '(e0, h) := errors.New "sql: no rows in result set" h in
  let '(e1, h) := errors.New "record not found" h in
  let '(e2, h) := errors.New "record not found" h in
  let '(e3, h) := errors.New "invalid runtime format" h in
  (mkSentinels e0 e1 e2 e3, h).

Definition the_sentinels : sentinels := Eval cbv in fst (init_packages 1%positive).

Module sql.
Definition ErrNoRows : error := s_ErrNoRows the_sentinels.
End sql.

Definition ErrRecordNotFound : error := s_ErrRecordNotFound the_sentinels.
Definition ErrEditConflict : error := s_ErrEditConflict the_sentinels.
Definition ErrInvalidRuntimeFormat : error := s_ErrInvalidRuntimeFormat the_sentinels.

(* ===================================================================== *)
(** ** Package [validator] *)
(* ===================================================================== *)

Module validator.

(** [Errors] is the map built by [make] in [New]. *)
Record Validator := mkValidator { Errors : gmap string string }.

Definition New : Validator := mkValidator ∅.

Definition AddError (v : Validator) (key message : string) : Validator :=
  match Errors v !! key with
  | Some _ => v
  | None => mkValidator (<[key := message]> (Errors v))
  end.

Definition Check (v : Validator) (ok : bool) (key message : string) : Validator :=
  if negb ok then AddError v key message else v.

Definition Valid (v : Validator) : bool :=
  Nat.eqb (size (Errors v)) 0.

(** [slices.Contains] on the variadic list. *)
Definition PermittedValues (value : string) (permittedValues : list string) : bool :=
  existsb (String.eqb value) permittedValues.

(** [Unique]: the number of distinct keys put in the map equals the number
    of values. *)
Definition Unique (values : list string) : bool :=
  Nat.eqb (length values)
          (size (foldl (fun (m : gmap string bool) x => <[x := true]> m) ∅ values)).

(** One call of [Check] as data, and a sequence of calls on the same
    validator. *)
Record check := mkCheck { c_ok : bool; c_key : string; c_message : string }.

Definition run (v : Validator) (cs : list check) : Validator :=
  foldl (fun v c => Check v (c_ok c) (c_key c) (c_message c)) v cs.

(** The message of the first failing check for [key] in [cs]. *)
Fixpoint first_failure (key : string) (cs : list check) : option string :=
  match cs with
  | [] => None
  | c :: cs =>
      if negb (c_ok c) && String.eqb (c_key c) key then Some (c_message c)
      else first_failure key cs
  end.

End validator.

(* ===================================================================== *)
(** ** Bytes and fixed-width integers *)
(* ===================================================================== *)

Definition byte_val (c : ascii) : Z := Z.of_N (N_of_ascii c).
Definition byte_chr (z : Z) : ascii := ascii_of_N (Z.to_N (z mod 256)).

(** Conversion to a signed [w]-bit integer (Go's [int32(x)], [int64(x)]). *)
Definition wrap_signed (w : Z) (x : Z) : Z :=
  let m := x mod 2 ^ w in
  if m <? 2 ^ (w - 1) then m else m - 2 ^ w.

Definition int32 (x : Z) : Z := wrap_signed 32 x.
Definition int64 (x : Z) : Z := wrap_signed 64 x.
Definition uint64 (x : Z) : Z := x mod 2 ^ 64.

Definition str1 (c : ascii) : string := String c EmptyString.

(** [s[n:]] for [n <= len(s)]. *)
Fixpoint drop_bytes (n : nat) (s : string) : string :=
  match n, s with
  | S k, String _ t => drop_bytes k t
  | _, _ => s
  end.

(** [s[:n]] for [n <= len(s)]. *)
Fixpoint take_bytes (n : nat) (s : string) : string :=
  match n, s with
  | S k, String c t => String c (take_bytes k t)
  | _, _ => EmptyString
  end.

(** [strings.IndexByte]. *)
Fixpoint index_byte (s : string) (c : ascii) : option nat :=
  match s with
  | EmptyString => None
  | String d t => if Ascii.eqb d c then Some O else option_map S (index_byte t c)
  end.

Definition contains_byte (s : string) (c : ascii) : bool :=
  match index_byte s c with Some _ => true | None => false end.

(* ===================================================================== *)
(** ** Package [unicode/utf8] *)
(* ===================================================================== *)

Module utf8.

Definition RuneError : Z := 0xFFFD.
Definition RuneSelf : Z := 0x80.
Definition MaxRune : Z := 0x10FFFF.

Definition in_range (lo hi : Z) (c : ascii) : bool :=
  (lo <=? byte_val c) && (byte_val c <=? hi).

(** The [first] table with [acceptRanges]: for a leading byte, the length
    of the sequence and the range accepted for the second byte; [None] for
    the bytes that cannot start a sequence. *)
Definition first (b : Z) : option (nat * Z * Z) :=
  if b <? 0xC2 then None
  else if b <=? 0xDF then Some (2%nat, 0x80, 0xBF)
  else if b =? 0xE0 then Some (3%nat, 0xA0, 0xBF)
  else if b <=? 0xEC then Some (3%nat, 0x80, 0xBF)
  else if b =? 0xED then Some (3%nat, 0x80, 0x9F)
  else if b <=? 0xEF then Some (3%nat, 0x80, 0xBF)
  else if b =? 0xF0 then Some (4%nat, 0x90, 0xBF)
  else if b <=? 0xF3 then Some (4%nat, 0x80, 0xBF)
  else if b =? 0xF4 then Some (4%nat, 0x80, 0x8F)
  else None.

Definition low6 (c : ascii) : Z := Z.land (byte_val c) 0x3F.

Definition DecodeRuneInString (s : string) : Z * nat :=
  match s with
  | EmptyString => (RuneError, 0%nat)
  | String c0 t =>
      let s0 := byte_val c0 in
      if s0 <? RuneSelf then (s0, 1%nat)
      else
        match first s0 with
        | None => (RuneError, 1%nat)
        | Some (sz, lo, hi) =>
            if (String.length s <? sz)%nat then (RuneError, 1%nat)
            else
              match t with
              | String c1 t1 =>
                  if negb (in_range lo hi c1) then (RuneError, 1%nat)
                  else if (sz <=? 2)%nat then
                    (Z.lor (Z.shiftl (Z.land s0 0x1F) 6) (low6 c1), 2%nat)
                  else
                    match t1 with
                    | String c2 t2 =>
                        if negb (in_range 0x80 0xBF c2) then (RuneError, 1%nat)
                        else if (sz <=? 3)%nat then
                          (Z.lor (Z.shiftl (Z.land s0 0x0F) 12)
                             (Z.lor (Z.shiftl (low6 c1) 6) (low6 c2)), 3%nat)
                        else
                          match t2 with
                          | String c3 _ =>
                              if negb (in_range 0x80 0xBF c3) then (RuneError, 1%nat)
                              else
                                (Z.lor (Z.shiftl (Z.land s0 0x07) 18)
                                   (Z.lor (Z.shiftl (low6 c1) 12)
                                      (Z.lor (Z.shiftl (low6 c2) 6) (low6 c3))), 4%nat)
                          | EmptyString => (RuneError, 1%nat)
                          end
                    | EmptyString => (RuneError, 1%nat)
                    end
              | EmptyString => (RuneError, 1%nat)
              end
        end
  end.

Fixpoint ValidString (s : string) : bool :=
  match s with
  | EmptyString => true
  | String c0 t =>
      if byte_val c0 <? RuneSelf then ValidString t
      else
        match first (byte_val c0) with
        | None => false
        | Some (sz, lo, hi) =>
            match sz, t with
            | 2%nat, String c1 t1 => in_range lo hi c1 && ValidString t1
            | 3%nat, String c1 (String c2 t2) =>
                in_range lo hi c1 && in_range 0x80 0xBF c2 && ValidString t2
            | 4%nat, String c1 (String c2 (String c3 t3)) =>
                in_range lo hi c1 && in_range 0x80 0xBF c2 && in_range 0x80 0xBF c3
                && ValidString t3
            | _, _ => false
            end
        end
  end.

Definition ValidRune (r : Z) : bool :=
  ((0 <=? r) && (r <? 0xD800)) || ((0xDFFF <? r) && (r <=? MaxRune)).

Definition cont_byte (x : Z) : ascii := byte_chr (Z.lor 0x80 (Z.land x 0x3F)).

Definition encode3 (r : Z) : string :=
  String (byte_chr (Z.lor 0xE0 (Z.shiftr r 12)))
    (String (cont_byte (Z.shiftr r 6)) (str1 (cont_byte r))).

(** The bytes [utf8.AppendRune] appends for rune [r] (an [int32]). *)
Definition AppendRune (r : Z) : string :=
  let i := r mod 2 ^ 32 in
  if i <=? 0x7F then str1 (byte_chr r)
  else if i <=? 0x7FF then
    String (byte_chr (Z.lor 0xC0 (Z.shiftr r 6))) (str1 (cont_byte r))
  else if (MaxRune <? i) || ((0xD800 <=? i) && (i <=? 0xDFFF)) then encode3 RuneError
  else if i <=? 0xFFFF then encode3 r
  else
    String (byte_chr (Z.lor 0xF0 (Z.shiftr r 18)))
      (String (cont_byte (Z.shiftr r 12))
         (String (cont_byte (Z.shiftr r 6)) (str1 (cont_byte r)))).

End utf8.

(* ===================================================================== *)
(** ** Package [strconv] *)
(* ===================================================================== *)

Definition ch_dquote : ascii := "034"%char.
Definition ch_squote : ascii := "039"%char.
Definition ch_bquote : ascii := "096"%char.
Definition ch_backslash : ascii := "092"%char.
Definition ch_newline : ascii := "010"%char.
Definition ch_return : ascii := "013"%char.
Definition ch_space : ascii := "032"%char.

Module strconv.

(** The [Err] field of the [*NumError] that the parsing functions return. *)
Inductive NumErr := ErrSyntax | ErrRange | ErrBase | ErrBitSize.

Definition unhex (c : ascii) : option Z :=
  let b := byte_val c in
  if (48 <=? b) && (b <=? 57) then Some (b - 48)
  else if (97 <=? b) && (b <=? 102) then Some (b - 97 + 10)
  else if (65 <=? b) && (b <=? 70) then Some (b - 65 + 10)
  else None.

(** [v = v<<4 | x] over [n] hexadecimal digits, [v] being a rune. *)
Fixpoint hex_digits (n : nat) (v : Z) (s : string) : option (Z * string) :=
  match n with
  | O => Some (v, s)
  | S k =>
      match s with
      | String c t =>
          match unhex c with
          | Some x => hex_digits k (int32 (Z.lor (Z.shiftl v 4) x)) t
          | None => None
          end
      | EmptyString => None
      end
  end.

(** [v = (v << 3) | x] over two more octal digits. *)
Fixpoint oct_digits (n : nat) (v : Z) (s : string) : option (Z * string) :=
  match n with
  | O => Some (v, s)
  | S k =>
      match s with
      | String c t =>
          let x := byte_val c - 48 in
          if (x <? 0) || (7 <? x) then None
          else oct_digits k (Z.lor (Z.shiftl v 3) x) t
      | EmptyString => None
      end
  end.

(** [UnquoteChar]: value, multibyte flag and tail; [None] is [ErrSyntax]. *)
Definition UnquoteChar (s : string) (quote : ascii) : option (Z * bool * string) :=
  match s with
  | EmptyString => None
  | String c t =>
      if Ascii.eqb c quote && (Ascii.eqb quote ch_squote || Ascii.eqb quote ch_dquote)
      then None
      else if utf8.RuneSelf <=? byte_val c then
        let '(r, size) := utf8.DecodeRuneInString s in
        Some (r, true, drop_bytes size s)
      else if negb (Ascii.eqb c ch_backslash) then Some (byte_val c, false, t)
      else
        match t with
        | EmptyString => None
        | String e s2 =>
            match byte_val e with
            | 97 => Some (7, false, s2)    (* \a *)
            | 98 => Some (8, false, s2)    (* \b *)
            | 102 => Some (12, false, s2)  (* \f *)
            | 110 => Some (10, false, s2)  (* \n *)
            | 114 => Some (13, false, s2)  (* \r *)
            | 116 => Some (9, false, s2)   (* \t *)
            | 118 => Some (11, false, s2)  (* \v *)
            | 120 =>                       (* \x *)
                match hex_digits 2 0 s2 with
                | Some (v, s3) => Some (v, false, s3)
                | None => None
                end
            | 117 =>                       (* \u *)
                match hex_digits 4 0 s2 with
                | Some (v, s3) => if utf8.ValidRune v then Some (v, true, s3) else None
                | None => None
                end
            | 85 =>                        (* \U *)
                match hex_digits 8 0 s2 with
                | Some (v, s3) => if utf8.ValidRune v then Some (v, true, s3) else None
                | None => None
                end
            | 48 | 49 | 50 | 51 | 52 | 53 | 54 | 55 =>
                match oct_digits 2 (byte_val e - 48) s2 with
                | Some (v, s3) => if 255 <? v then None else Some (v, false, s3)
                | None => None
                end
            | 92 => Some (92, false, s2)   (* backslash *)
            | 39 | 34 =>                   (* the two quotes *)
                if Ascii.eqb e quote then Some (byte_val e, false, s2) else None
            | _ => None
            end
        end
  end.

(** The loop of [unquote] over a quoted string with escape sequences: the
    buffer and the input left when the loop exits.  Every round consumes at
    least one byte, so [length s] rounds are enough. *)
Fixpoint unquote_loop (fuel : nat) (quote : ascii) (s buf : string)
  : option (string * string) :=
  match s with
  | EmptyString => Some (buf, s)
  | String c _ =>
      if Ascii.eqb c quote then Some (buf, s)
      else
        match fuel with
        | O => None
        | S f =>
            match UnquoteChar s quote with
            | None => None
            | Some (r, multibyte, rem) =>
                if Ascii.eqb c ch_newline then None
                else
                  let buf' :=
                    if (r <? utf8.RuneSelf) || negb multibyte
                    then (buf ++ str1 (byte_chr r))%string
                    else (buf ++ utf8.AppendRune r)%string in
                  if Ascii.eqb quote ch_squote then Some (buf', rem)
                  else unquote_loop f quote rem buf'
            end
        end
  end.

Definition remove_byte (c : ascii) (s : string) : string :=
  string_of_list_ascii (List.filter (fun d => negb (Ascii.eqb d c)) (list_ascii_of_string s)).

(** [unquote(in, true)]: the unquoted prefix and the remainder. *)
Definition unquote (s : string) : option (string * string) :=
  match s with
  | String quote (String _ _ as body) =>
      match index_byte body quote with
      | None => None
      | Some e =>
          let inner := take_bytes e body in
          let rem := drop_bytes (S e) body in
          if Ascii.eqb quote ch_bquote then Some (remove_byte ch_return inner, rem)
          else if Ascii.eqb quote ch_dquote || Ascii.eqb quote ch_squote then
            let plain :=
              negb (contains_byte inner ch_backslash)
              && negb (contains_byte inner ch_newline)
              && (if Ascii.eqb quote ch_dquote then utf8.ValidString inner
                  else
                    let '(r, n) := utf8.DecodeRuneInString inner in
                    Nat.eqb n e && negb ((r =? utf8.RuneError) && Nat.eqb n 1)) in
            if plain then Some (inner, rem)
            else
              match unquote_loop (String.length body) quote body EmptyString with
              | Some (buf, String c rest) =>
                  if Ascii.eqb c quote then Some (buf, rest) else None
              | _ => None
              end
          else None
      end
  | _ => None
  end.

(** [Unquote]: [None] is [ErrSyntax]. *)
Definition Unquote (s : string) : option string :=
  match unquote s with
  | Some (out, EmptyString) => Some out
  | _ => None
  end.

(** The digit loop of [ParseUint] for an explicit base in 2..36: the
    accumulator is a [uint64]. *)
Fixpoint parse_digits (base maxVal : Z) (n : Z) (s : string) : Z * option NumErr :=
  match s with
  | EmptyString => (n, None)
  | String c t =>
      let b := byte_val c in
      let lower := Z.lor b 32 in
      let d :=
        if (48 <=? b) && (b <=? 57) then Some (b - 48)
        else if (97 <=? lower) && (lower <=? 122) then Some (lower - 97 + 10)
        else None in
      match d with
      | None => (0, Some ErrSyntax)
      | Some d =>
          if base <=? d then (0, Some ErrSyntax)
          else if (2 ^ 64 - 1) / base + 1 <=? n then (maxVal, Some ErrRange)
          else
            let n0 := uint64 (n * base) in
            let n1 := uint64 (n0 + d) in
            if (n1 <? n0) || (maxVal <? n1) then (maxVal, Some ErrRange)
            else parse_digits base maxVal n1 t
      end
  end.

(** [ParseUint] for an explicit base.  Base 0, where the base is read from
    the prefix of the string, is not used by this program and is answered
    like the other bases outside 2..36. *)
Definition ParseUint (s : string) (base bitSize : Z) : Z * option NumErr :=
  match s with
  | EmptyString => (0, Some ErrSyntax)
  | _ =>
      if (base <? 2) || (36 <? base) then (0, Some ErrBase)
      else if (bitSize <? 0) || (64 <? bitSize) then (0, Some ErrBitSize)
      else
        let bitSize := if bitSize =? 0 then 64 else bitSize in
        parse_digits base (2 ^ bitSize - 1) 0 s
  end.

Definition ParseInt (s : string) (base bitSize : Z) : Z * option NumErr :=
  match s with
  | EmptyString => (0, Some ErrSyntax)
  | String c t =>
      let neg := Ascii.eqb c "-" in
      let s' := if Ascii.eqb c "+" || neg then t else s in
      let '(un, err) := ParseUint s' base bitSize in
      match err with
      | Some ErrSyntax | Some ErrBase | Some ErrBitSize => (0, err)
      | _ =>
          let bitSize := if bitSize =? 0 then 64 else bitSize in
          let cutoff := 2 ^ (bitSize - 1) in
          if negb neg && (cutoff <=? un) then (cutoff - 1, Some ErrRange)
          else if neg && (cutoff <? un) then (- cutoff, Some ErrRange)
          else
            let n := int64 un in
            (if neg then int64 (- n) else n, None)
      end
  end.

(** Decimal digits of a non-negative integer, most significant first.
    [fuel] bounds the number of digits. *)
Fixpoint digits (fuel : nat) (n : Z) (acc : string) : string :=
  let acc' := String (byte_chr (48 + n mod 10)) acc in
  match fuel with
  | O => acc'
  | S f => if n <? 10 then acc' else digits f (n / 10) acc'
  end.

(** [FormatInt(i, 10)]. *)
Definition FormatInt (i : Z) : string :=
  let u := Z.abs i in
  let ds := digits (Z.to_nat (Z.log2 u)) u EmptyString in
  if i <? 0 then String "-" ds else ds.

Section Quote.
(** [IsPrint] above Latin-1 is decided by Unicode tables, taken here as
    given. *)
Variable unicode_print : Z -> bool.

Definition IsPrint (r : Z) : bool :=
  if r <=? 0xFF then
    if (0x20 <=? r) && (r <=? 0x7E) then true
    else if (0xA1 <=? r) && (r <=? 0xFF) then negb (r =? 0xAD)
    else false
  else unicode_print r.

Definition lowerhex (x : Z) : ascii :=
  if x <? 10 then byte_chr (48 + x) else byte_chr (97 + x - 10).

Fixpoint hex_of (n : nat) (r : Z) : string :=
  match n with
  | O => EmptyString
  | S k => String (lowerhex (Z.land (Z.shiftr r (4 * Z.of_nat k)) 0xF)) (hex_of k r)
  end.

Definition escape2 (c : ascii) : string := String ch_backslash (str1 c).

Definition appendEscapedRune (r : Z) (quote : ascii) : string :=
  if (r =? byte_val quote) || (r =? 92) then escape2 (byte_chr r)
  else if IsPrint r then utf8.AppendRune r
  else
    match r with
    | 7 => escape2 "a"
    | 8 => escape2 "b"
    | 12 => escape2 "f"
    | 10 => escape2 "n"
    | 13 => escape2 "r"
    | 9 => escape2 "t"
    | 11 => escape2 "v"
    | _ =>
        if (r <? 32) || (r =? 0x7F) then (escape2 "x" ++ hex_of 2 r)%string
        else if negb (utf8.ValidRune r) then (escape2 "u" ++ hex_of 4 0xFFFD)%string
        else if r <? 0x10000 then (escape2 "u" ++ hex_of 4 r)%string
        else (escape2 "U" ++ hex_of 8 r)%string
    end.

(** The loop of [appendQuotedWith]; [skip] counts the bytes of the
    current rune still to step over. *)
Fixpoint quote_loop (quote : ascii) (skip : nat) (s : string) : string :=
  match s with
  | EmptyString => EmptyString
  | String c t =>
      match skip with
      | S k => quote_loop quote k t
      | O =>
          let '(r, width) :=
            if utf8.RuneSelf <=? byte_val c then utf8.DecodeRuneInString s
            else (byte_val c, 1%nat) in
          if Nat.eqb width 1 && (r =? utf8.RuneError) then
            (escape2 "x" ++ hex_of 2 (byte_val c) ++ quote_loop quote 0 t)%string
          else
            (appendEscapedRune r quote ++ quote_loop quote (width - 1) t)%string
      end
  end.

Definition Quote (s : string) : string :=
  String ch_dquote (quote_loop ch_dquote 0 s ++ str1 ch_dquote).

End Quote.

End strconv.

Module strings.

Fixpoint HasPrefix (s prefix : string) {struct prefix} : bool :=
  match prefix with
  | EmptyString => true
  | String a p =>
      match s with
      | String b t => Ascii.eqb a b && HasPrefix t p
      | EmptyString => false
      end
  end.

(** The loop of [genSplit] for a non-empty separator: cut at the leftmost
    occurrences of [sep], left to right, without overlap.  [skip] counts the
    bytes of the separator still to step over, [cur] is the piece being
    read. *)
Fixpoint genSplit (sep : string) (skip : nat) (cur : string) (s : string) : list string :=
  match s with
  | EmptyString => [cur]
  | String c t =>
      match skip with
      | S k => genSplit sep k cur t
      | O =>
          if HasPrefix s sep
          then cur :: genSplit sep (String.length sep - 1) EmptyString t
          else genSplit sep 0 (cur ++ str1 c) t
      end
  end.

(** [strings.Split] with a non-empty separator (the empty separator, which
    explodes the string into UTF-8 sequences, is not used by this
    program). *)
Definition Split (s sep : string) : list string := genSplit sep 0 EmptyString s.

End strings.

Module fmt.

(** [fmt.Sprintf] for formats made of literal text and the verb [%d], with
    one integer operand. *)
Fixpoint Sprintf (format : string) (a : Z) : string :=
  match format with
  | String "%" (String "d" rest) => (strconv.FormatInt a ++ rest)%string
  | String c rest => String c (Sprintf rest a)
  | EmptyString => EmptyString
  end.

End fmt.

(* ===================================================================== *)
(** ** Package [data]: the [Runtime] type *)
(* ===================================================================== *)

(** [type Runtime int32]. *)
Definition Runtime := Z.

Section RuntimeJSON.
Variable unicode_print : Z -> bool.

Definition MarshalJSON (r : Runtime) : string * option error :=
  let jsonValue := fmt.Sprintf "%d min" r in
  let quotedJsonValue := strconv.Quote unicode_print jsonValue in
  (quotedJsonValue, None).
End RuntimeJSON.

(** The receiver is a pointer: the result is the receiver after the call and
    the error. *)
Definition UnmarshalJSON (r : Runtime) (jsonValue : string) : Runtime * option error :=
  match strconv.Unquote jsonValue with
  | None => (r, Some ErrInvalidRuntimeFormat)
  | Some unquotedJSONvalue =>
      let parts := strings.Split unquotedJSONvalue " " in
      if negb (Nat.eqb (length parts) 2) || negb (String.eqb (nth 1 parts EmptyString) "mins")
      then (r, Some ErrInvalidRuntimeFormat)
      else
        match strconv.ParseInt (nth 0 parts EmptyString) 10 64 with
        | (_, Some _) => (r, Some ErrInvalidRuntimeFormat)
        | (m, None) => (int32 m, None)
        end
  end.

(** A JSON string literal: the text between double quotes. *)
Definition json_string (s : string) : string :=
  String ch_dquote (s ++ str1 ch_dquote).

(* ===================================================================== *)
(** ** Package [encoding/base32] *)
(* ===================================================================== *)

Module base32.

Definition encodeStd : string := "ABCDEFGHIJKLMNOPQRSTUVWXYZ234567".

(** [enc.encode[b & 31]]. *)
Definition encode (b : Z) : ascii :=
  match String.get (Z.to_nat (Z.land b 31)) encodeStd with
  | Some c => c
  | None => "A"%char
  end.

Definition shl (x n : Z) : Z := Z.land (Z.shiftl x n) 0x1F.
Definition shr (x n : Z) : Z := Z.land (Z.shiftr x n) 0x1F.

(** The eight 5-bit blocks of a quantum of five source bytes; bytes absent
    from a shorter final quantum contribute nothing. *)
Definition quantum (s0 s1 s2 s3 s4 : Z) : list Z :=
  [ Z.shiftr s0 3;
    Z.lor (shl s0 2) (shr s1 6);
    shr s1 1;
    Z.lor (shl s1 4) (shr s2 4);
    Z.lor (shl s2 1) (Z.shiftr s3 7);
    shr s3 2;
    Z.lor (shl s3 3) (Z.shiftr s4 5);
    Z.land s4 0x1F ].

Definition chars (n : nat) (bs : list Z) : string :=
  string_of_list_ascii (List.map encode (firstn n bs)).

Definition padding (padChar : option ascii) (n : nat) : string :=
  match padChar with
  | None => EmptyString
  | Some c => string_of_list_ascii (repeat c n)
  end.

(** [Encode] followed by the conversion to a string.  [padChar] is [None]
    for [NoPadding]. *)
Fixpoint EncodeToString (padChar : option ascii) (src : string) : string :=
  match src with
  | EmptyString => EmptyString
  | String a EmptyString =>
      (chars 2 (quantum (byte_val a) 0 0 0 0) ++ padding padChar 6)%string
  | String a (String b EmptyString) =>
      (chars 4 (quantum (byte_val a) (byte_val b) 0 0 0) ++ padding padChar 4)%string
  | String a (String b (String c EmptyString)) =>
      (chars 5 (quantum (byte_val a) (byte_val b) (byte_val c) 0 0)
         ++ padding padChar 3)%string
  | String a (String b (String c (String d EmptyString))) =>
      (chars 7 (quantum (byte_val a) (byte_val b) (byte_val c) (byte_val d) 0)
         ++ padding padChar 1)%string
  | String a (String b (String c (String d (String e rest)))) =>
      (chars 8 (quantum (byte_val a) (byte_val b) (byte_val c) (byte_val d) (byte_val e))
         ++ EncodeToString padChar rest)%string
  end.

(** [EncodedLen] without padding. *)
Definition EncodedLen (n : nat) : nat := (n / 5 * 8 + (n mod 5 * 8 + 4) / 5)%nat.

End base32.

(* ===================================================================== *)
(** ** Package [crypto/sha256] *)
(* ===================================================================== *)

Module sha256.

(** The first 64 primes. *)
Definition primes : list Z :=
  [2; 3; 5; 7; 11; 13; 17; 19; 23; 29; 31; 37; 41; 43; 47; 53;
   59; 61; 67; 71; 73; 79; 83; 89; 97; 101; 103; 107; 109; 113; 127; 131;
   137; 139; 149; 151; 157; 163; 167; 173; 179; 181; 191; 193; 197; 199; 211; 223;
   227; 229; 233; 239; 241; 251; 257; 263; 269; 271; 277; 281; 283; 293; 307; 311].

(** Integer cube root below [2 ^ b], one bit at a time. *)
Fixpoint cube_root (b : nat) (x n : Z) : Z :=
  match b with
  | O => x
  | S k =>
      let y := x + 2 ^ Z.of_nat k in
      cube_root k (if y * y * y <=? n then y else x) n
  end.

(** The round constants [_K]: the first 32 bits of the fractional parts of
    the cube roots of the primes. *)
Definition K : list Z :=
  Eval vm_compute in
    List.map (fun p => cube_root 36 0 (p * 2 ^ 96) mod 2 ^ 32) primes.

Definition add32 (a b : Z) : Z := (a + b) mod 2 ^ 32.
Definition rotr (n x : Z) : Z :=
  Z.lor (Z.shiftr x n) (Z.shiftl x (32 - n) mod 2 ^ 32).
Definition not32 (x : Z) : Z := Z.lxor x 0xFFFFFFFF.

Definition Ch (x y z : Z) : Z := Z.lxor (Z.land x y) (Z.land (not32 x) z).
Definition Maj (x y z : Z) : Z :=
  Z.lxor (Z.lxor (Z.land x y) (Z.land x z)) (Z.land y z).
Definition Sigma0 (x : Z) : Z := Z.lxor (Z.lxor (rotr 2 x) (rotr 13 x)) (rotr 22 x).
Definition Sigma1 (x : Z) : Z := Z.lxor (Z.lxor (rotr 6 x) (rotr 11 x)) (rotr 25 x).
Definition sigma0 (x : Z) : Z := Z.lxor (Z.lxor (rotr 7 x) (rotr 18 x)) (Z.shiftr x 3).
Definition sigma1 (x : Z) : Z := Z.lxor (Z.lxor (rotr 17 x) (rotr 19 x)) (Z.shiftr x 10).

Record digest := mkDigest { h0 : Z; h1 : Z; h2 : Z; h3 : Z; h4 : Z; h5 : Z; h6 : Z; h7 : Z }.

(** The initial value: the first 32 bits of the fractional parts of the
    square roots of the first eight primes. *)
Definition init : digest :=
  Eval vm_compute in
    let h (p : Z) := Z.sqrt (p * 2 ^ 64) mod 2 ^ 32 in
    mkDigest (h 2) (h 3) (h 5) (h 7) (h 11) (h 13) (h 17) (h 19).

(** Big-endian bytes of the low [8 * n] bits of [x]. *)
Fixpoint be_bytes (n : nat) (x : Z) : list Z :=
  match n with
  | O => []
  | S k => Z.land (Z.shiftr x (8 * Z.of_nat k)) 0xFF :: be_bytes k x
  end.

(** The message followed by 0x80, zeros up to 56 modulo 64, and the length
    in bits on 64 bits. *)
Definition pad (msg : list Z) : list Z :=
  let len := Z.of_nat (length msg) in
  msg ++ [0x80] ++ repeat 0 (Z.to_nat ((55 - len) mod 64))
      ++ be_bytes 8 ((len * 8) mod 2 ^ 64).

Fixpoint words (bs : list Z) : list Z :=
  match bs with
  | a :: b :: c :: d :: t =>
      Z.lor (Z.shiftl a 24) (Z.lor (Z.shiftl b 16) (Z.lor (Z.shiftl c 8) d)) :: words t
  | _ => []
  end.

(** The message schedule: [n] more words after the ones of [w]. *)
Fixpoint schedule (n : nat) (w : list Z) : list Z :=
  match n with
  | O => w
  | S k =>
      let i := length w in
      let v :=
        add32 (add32 (nth (i - 16) w 0) (sigma0 (nth (i - 15) w 0)))
              (add32 (nth (i - 7) w 0) (sigma1 (nth (i - 2) w 0))) in
      schedule k (w ++ [v])
  end.

Definition round (st : digest) (kw : Z * Z) : digest :=
  let '(k, w) := kw in
  let t1 := add32 (add32 (add32 (h7 st) (Sigma1 (h4 st)))
                         (add32 (Ch (h4 st) (h5 st) (h6 st)) k)) w in
  let t2 := add32 (Sigma0 (h0 st)) (Maj (h0 st) (h1 st) (h2 st)) in
  mkDigest (add32 t1 t2) (h0 st) (h1 st) (h2 st)
           (add32 (h3 st) t1) (h4 st) (h5 st) (h6 st).

Definition block (st : digest) (bs : list Z) : digest :=
  let w := schedule 48 (words bs) in
  let r := fold_left round (combine K w) st in
  mkDigest (add32 (h0 st) (h0 r)) (add32 (h1 st) (h1 r))
           (add32 (h2 st) (h2 r)) (add32 (h3 st) (h3 r))
           (add32 (h4 st) (h4 r)) (add32 (h5 st) (h5 r))
           (add32 (h6 st) (h6 r)) (add32 (h7 st) (h7 r)).

(** One 64-byte block per round; [fuel] bounds the number of blocks. *)
Fixpoint blocks (fuel : nat) (st : digest) (bs : list Z) : digest :=
  match fuel, bs with
  | S f, _ :: _ => blocks f (block st (firstn 64 bs)) (skipn 64 bs)
  | _, _ => st
  end.

Definition word_bytes (x : Z) (rest : string) : string :=
  String (byte_chr (Z.shiftr x 24))
    (String (byte_chr (Z.shiftr x 16))
       (String (byte_chr (Z.shiftr x 8)) (String (byte_chr x) rest))).

(** The 32 bytes of the [\[Size\]byte] result. *)
Definition checkSum (d : digest) : string :=
  word_bytes (h0 d) (word_bytes (h1 d) (word_bytes (h2 d) (word_bytes (h3 d)
    (word_bytes (h4 d) (word_bytes (h5 d) (word_bytes (h6 d)
      (word_bytes (h7 d) EmptyString))))))).

Definition Sum256 (data : string) : string :=
  let bs := pad (List.map byte_val (list_ascii_of_string data)) in
  checkSum (blocks (length bs) init bs).

End sha256.

(* ===================================================================== *)
(** ** Package [crypto/rand] and the clock *)
(* ===================================================================== *)

Module rand.

(** The operating system's random source as one call of [Read] sees it:
    either it fails, or it delivers as many bytes as are asked for. *)
Record source := mkSource { failure : option error; byte_at : nat -> ascii }.

(** [rand.Read(b)] for a slice of [n] bytes: the slice after the call and
    the error.  On failure the slice made by [make] is still all zero. *)
Definition Read (src : source) (n : nat) : string * option error :=
  match failure src with
  | Some e => (string_of_list_ascii (repeat zero n), Some e)
  | None => (string_of_list_ascii (List.map (byte_at src) (seq 0 n)), None)
  end.

End rand.

(** [time.Time] as nanoseconds since the epoch, [time.Duration] as
    nanoseconds. *)
Definition Time := Z.
Definition Duration := Z.
Definition time_Add (t : Time) (d : Duration) : Time := t + d.

(* ===================================================================== *)
(** ** The relational store *)
(* ===================================================================== *)

(** A Go slice: [None] is the nil slice, which [pq.Array] sends as SQL
    [NULL]; an empty slice is sent as the empty array. *)
Definition slice (A : Type) := option (list A).

(** Outcome of a statement: its result, or the error of the driver. *)
Inductive outcome (A : Type) :=
| Ok (a : A)
| Err (e : error).
Arguments Ok {A} a.
Arguments Err {A} e.

Module store.

(** Modelled from the spec: the tables [movies] and [tokens] (the migrations
    are not part of the sources).  [movies]: [id] is a store-assigned key
    drawn from a sequence that starts at 1 and is the primary key;
    [created_at] is assigned at insert; [version] is a 32-bit integer
    column that starts at 1.  [tokens]: [hash] is unique. *)
Record movie_row := mkMovieRow {
  r_created_at : Time;
  r_title : string;
  r_year : Z;
  r_runtime : Z;
  r_genres : slice string;
  r_version : Z;
}.

(** Modelled from the spec: a row of [tokens], stored under its hash. *)
Record token_row := mkTokenRow {
  t_user_id : Z;
  t_expiry : Time;
  t_scope : string;
}.

(** Modelled from the spec: the two tables, and the sequence that numbers
    the movies. *)
Record Database := mkDatabase {
  movies : gmap Z movie_row;
  movies_id_seq : Z;
  tokens : gmap string token_row;
}.

Definition empty : Database := mkDatabase ∅ 1 ∅.

Definition with_movies (db : Database) (m : gmap Z movie_row) : Database :=
  mkDatabase m (movies_id_seq db) (tokens db).

(** An error raised by the server and handed over by the driver. *)
Definition pq_error (text : string) : error :=
  errors.mkError errors.foreign 1 text.

(** What the environment does to one call (a lost connection, the deadline
    of the context).  The call returns the error either way; what differs is
    whether the server ran the statement: the fault strikes before the
    statement reaches the server, or after the server has run it and before
    its answer reaches the caller. *)
Inductive fault :=
| lost_request (e : error)
| lost_answer (e : error).

Definition fault_error (f : fault) : error :=
  match f with
  | lost_request e => e
  | lost_answer e => e
  end.

(** A statement sent through the driver.  Without a fault the statement runs
    and its outcome is returned.  With a fault the caller gets the error of
    the fault; the store is untouched when the request was lost, and is as
    the statement leaves it when only the answer was lost. *)
Definition send {A} (fault : option fault) (db : Database)
    (stmt : Database -> Database * outcome A) : Database * outcome A :=
  match fault with
  | Some (lost_request e) => (db, Err e)
  | Some (lost_answer e) => ((stmt db).1, Err e)
  | None => stmt db
  end.

(** [INSERT INTO movies (title, year, runtime, genres) VALUES (...)
    RETURNING id, created_at, version].  The sequence advances even when
    the insert is refused. *)
Definition insert_movie (now : Time) (title : string) (year runtime : Z)
    (genres : slice string) (db : Database) : Database * outcome (list (Z * Time * Z)) :=
  let id := movies_id_seq db in
  let db1 := mkDatabase (movies db) (id + 1) (tokens db) in
  match movies db !! id with
  | Some _ => (db1, Err (pq_error "duplicate key value violates unique constraint"))
  | None =>
      (with_movies db1 (<[id := mkMovieRow now title year runtime genres 1]> (movies db)),
       Ok [(id, now, 1)])
  end.

(** [UPDATE movies SET title = $1, year = $2, runtime = $3, genres = $4,
    version = version + 1 WHERE id = $5 AND version = $6 RETURNING version]. *)
Definition update_movie (title : string) (year runtime : Z) (genres : slice string)
    (id version : Z) (db : Database) : Database * outcome (list Z) :=
  match movies db !! id with
  | Some r =>
      if r_version r =? version then
        if r_version r + 1 <? 2 ^ 31 then
          (with_movies db
             (<[id := mkMovieRow (r_created_at r) title year runtime genres
                        (r_version r + 1)]> (movies db)),
           Ok [r_version r + 1])
        else (db, Err (pq_error "integer out of range"))
      else (db, Ok [])
  | None => (db, Ok [])
  end.

(** The result of [Exec]: the driver's count of affected rows, which the
    driver returns without an error. *)
Record Result := mkResult { rows_affected : Z; rows_affected_err : option error }.

(** [DELETE FROM movies WHERE id = $1]. *)
Definition delete_movie (id : Z) (db : Database) : Database * outcome Result :=
  match movies db !! id with
  | Some _ => (with_movies db (delete id (movies db)), Ok (mkResult 1 None))
  | None => (db, Ok (mkResult 0 None))
  end.

(** [SELECT id, created_at, title, year, runtime, genres, version FROM
    movies WHERE id = $1]. *)
Definition select_movie (id : Z) (db : Database) : Database * outcome (list (Z * movie_row)) :=
  match movies db !! id with
  | Some r => (db, Ok [(id, r)])
  | None => (db, Ok [])
  end.

(** [INSERT INTO tokens (hash, user_id, expiry, scope) VALUES (...)]. *)
Definition insert_token (hash : string) (user_id : Z) (expiry : Time) (scope : string)
    (db : Database) : Database * outcome Result :=
  match tokens db !! hash with
  | Some _ => (db, Err (pq_error "duplicate key value violates unique constraint"))
  | None =>
      (mkDatabase (movies db) (movies_id_seq db)
         (<[hash := mkTokenRow user_id expiry scope]> (tokens db)),
       Ok (mkResult 1 None))
  end.

(** [DELETE FROM tokens WHERE user_id = $1 AND scope = $2]. *)
Definition delete_tokens (user_id : Z) (scope : string) (db : Database)
    : Database * outcome Result :=
  let keep (kv : string * token_row) :=
    negb ((t_user_id kv.2 =? user_id) && String.eqb (t_scope kv.2) scope) in
  let kept := List.filter keep (map_to_list (tokens db)) in
  (mkDatabase (movies db) (movies_id_seq db) (list_to_map kept),
   Ok (mkResult (Z.of_nat (size (tokens db)) - Z.of_nat (length kept)) None)).

(** The server's text services: the full-text match
    [to_tsvector('simple', title) @@ plainto_tsquery('simple', q)] and the
    collation of the text columns, a total order. *)
Record engine := mkEngine {
  ts_match : string -> string -> bool;
  collate_le : string -> string -> bool;
  collate_total : forall a b, collate_le a b = true \/ collate_le b a = true;
}.

(** SQL's three-valued logic. *)
Inductive tri := TTrue | TFalse | TNull.

Definition tri_of (b : bool) : tri := if b then TTrue else TFalse.

Definition tri_or (a b : tri) : tri :=
  match a, b with
  | TTrue, _ | _, TTrue => TTrue
  | TFalse, TFalse => TFalse
  | _, _ => TNull
  end.

Definition tri_and (a b : tri) : tri :=
  match a, b with
  | TFalse, _ | _, TFalse => TFalse
  | TTrue, TTrue => TTrue
  | _, _ => TNull
  end.

(** [col @> arg] on text arrays: every element of [arg] is in [col]. *)
Definition array_contains (col arg : slice string) : tri :=
  match col, arg with
  | Some c, Some a => tri_of (forallb (fun x => existsb (String.eqb x) c) a)
  | _, _ => TNull
  end.

(** [arg = '{}']. *)
Definition array_is_empty (arg : slice string) : tri :=
  match arg with
  | Some [] => TTrue
  | Some _ => TFalse
  | None => TNull
  end.

(** The [WHERE] clause of the listing. *)
Definition listing_where (pg : engine) (title : string) (genres : slice string)
    (r : movie_row) : tri :=
  tri_and
    (tri_or (tri_of (ts_match pg (r_title r) title)) (tri_of (String.eqb title EmptyString)))
    (tri_or (array_contains (r_genres r) genres) (array_is_empty genres)).

Inductive value :=
| VInt (z : Z)
| VText (t : string)
| VArray (a : slice string).

Definition column (name : string) (id : Z) (r : movie_row) : option value :=
  if String.eqb name "id" then Some (VInt id)
  else if String.eqb name "created_at" then Some (VInt (r_created_at r))
  else if String.eqb name "title" then Some (VText (r_title r))
  else if String.eqb name "year" then Some (VInt (r_year r))
  else if String.eqb name "runtime" then Some (VInt (r_runtime r))
  else if String.eqb name "genres" then Some (VArray (r_genres r))
  else if String.eqb name "version" then Some (VInt (r_version r))
  else None.

Definition is_column (name : string) : bool :=
  match column name 0 (mkMovieRow 0 EmptyString 0 0 None 0) with
  | Some _ => true
  | None => false
  end.

(** Arrays compare element by element, a prefix before its extensions. *)
Fixpoint array_le (pg : engine) (a b : list string) : bool :=
  match a, b with
  | [], _ => true
  | _ :: _, [] => false
  | x :: a', y :: b' =>
      if collate_le pg x y then (if collate_le pg y x then array_le pg a' b' else true)
      else false
  end.

(** The ascending order of a column; [NULL] sorts last. *)
Definition value_le (pg : engine) (v w : option value) : bool :=
  match v, w with
  | Some (VInt a), Some (VInt b) => a <=? b
  | Some (VText a), Some (VText b) => collate_le pg a b
  | Some (VArray (Some a)), Some (VArray (Some b)) => array_le pg a b
  | Some (VArray None), Some (VArray (Some _)) => false
  | _, _ => true
  end.

(** [ORDER BY <column> <direction>, id ASC]. *)
Definition row_le (pg : engine) (col : string) (desc : bool)
    (x y : Z * movie_row) : bool :=
  let kx := column col x.1 x.2 in
  let ky := column col y.1 y.2 in
  if value_le pg kx ky && value_le pg ky kx then x.1 <=? y.1
  else if desc then value_le pg ky kx else value_le pg kx ky.

Fixpoint insert_row {A} (le : A -> A -> bool) (x : A) (l : list A) : list A :=
  match l with
  | [] => [x]
  | y :: l' => if le x y then x :: l else y :: insert_row le x l'
  end.

Definition order_by {A} (le : A -> A -> bool) (l : list A) : list A :=
  foldr (insert_row le) [] l.

(** The rows of the listing before [LIMIT] and [OFFSET]. *)
Definition listing_rows (pg : engine) (title : string) (genres : slice string)
    (col : string) (desc : bool) (db : Database) : list (Z * movie_row) :=
  order_by (row_le pg col desc)
    (List.filter
       (fun kv => match listing_where pg title genres kv.2 with
                  | TTrue => true
                  | _ => false
                  end)
       (map_to_list (movies db))).

(** [SELECT count( * ) OVER(), id, ... FROM movies WHERE (to_tsvector('simple',
    title) @@ plainto_tsquery('simple', $1) OR $1 = '') AND (genres @> $2 OR
    $2 = '{}') ORDER BY <column> <direction>, id ASC LIMIT $3 OFFSET $4].  The
    window count is taken over all the rows that pass [WHERE], and travels with
    each row that is returned. *)
Definition select_movies (pg : engine) (title : string) (genres : slice string)
    (sortColumn sortDirection : string) (limit offset : Z) (db : Database)
  : Database * outcome (list (Z * Z * movie_row)) :=
  if negb (is_column sortColumn) then (db, Err (pq_error "column does not exist"))
  else if negb (String.eqb sortDirection "ASC" || String.eqb sortDirection "DESC")
  then (db, Err (pq_error "syntax error"))
  else if limit <? 0 then (db, Err (pq_error "LIMIT must not be negative"))
  else if offset <? 0 then (db, Err (pq_error "OFFSET must not be negative"))
  else
    let rows :=
      listing_rows pg title genres sortColumn (String.eqb sortDirection "DESC") db in
    let count := Z.of_nat (length rows) in
    (db, Ok (List.map (fun kv => (count, kv.1, kv.2))
               (take (Z.to_nat limit) (drop (Z.to_nat offset) rows)))).

(** [Row.Scan]: the error of the query, [sql.ErrNoRows] when there is no
    row, the first row otherwise. *)
Definition Scan {A} (r : outcome (list A)) : outcome A :=
  match r with
  | Err e => Err e
  | Ok [] => Err sql.ErrNoRows
  | Ok (x :: _) => Ok x
  end.

End store.

(* ===================================================================== *)
(** ** Package [data]: tokens *)
(* ===================================================================== *)

Definition ScopeActivation : string := "activation".
Definition ScopeAuthorization : string := "authorization".

(** [Hash] is a byte slice; it is empty until [generateToken] fills it. *)
Record Token := mkToken {
  Hash : string;
  PlainText : string;
  UserID : Z;
  Expiry : Time;
  Scope : string;
}.

(** [now] is the reading of [time.Now()], [rnd] the random source that
    [rand.Read] draws from. *)
Definition generateToken (now : Time) (rnd : rand.source)
    (userID : Z) (ttl : Duration) (scope : string) : option Token * option error :=
  let token := mkToken EmptyString EmptyString userID (time_Add now ttl) scope in
  let '(randomBytes, err) := rand.Read rnd 16 in
  match err with
  | Some e => (None, Some e)
  | None =>
      let plaintext := base32.EncodeToString None randomBytes in
      let hash := sha256.Sum256 plaintext in
      (Some (mkToken hash plaintext (UserID token) (Expiry token) (Scope token)), None)
  end.

Module TokenModel.

Definition Insert (db : store.Database) (fault : option store.fault) (token : Token)
  : store.Database * option error :=
  match store.send fault db
          (store.insert_token (Hash token) (UserID token) (Expiry token) (Scope token)) with
  | (db', Ok _) => (db', None)
  | (db', Err e) => (db', Some e)
  end.

Definition New (db : store.Database) (fault : option store.fault) (now : Time)
    (rnd : rand.source) (userID : Z) (ttl : Duration) (scope : string)
  : store.Database * option Token * option error :=
  let '(token, err) := generateToken now rnd userID ttl scope in
  match err, token with
  | Some e, _ => (db, None, Some e)
  | None, Some token =>
      let '(db', err) := Insert db fault token in
      (db', Some token, err)
  | None, None => (db, None, None)  (* not reached: no error comes with a token *)
  end.

Definition DeleteAllForUser (db : store.Database) (fault : option store.fault)
    (userID : Z) (scope : string) : store.Database * option error :=
  match store.send fault db (store.delete_tokens userID scope) with
  | (db', Ok _) => (db', None)
  | (db', Err e) => (db', Some e)
  end.

End TokenModel.

Definition ValidateTokenPlaintext (v : validator.Validator) (tokenPlaintext : string)
  : validator.Validator :=
  let v := validator.Check v (negb (String.eqb tokenPlaintext EmptyString))
             "token" "must be provided" in
  validator.Check v (Nat.eqb (String.length tokenPlaintext) 26)
    "token" "must be 26 bytes long".

(* ===================================================================== *)
(** ** Package [data]: movies *)
(* ===================================================================== *)

(** [ID] is an [int64], [Year] and [Version] are [int32]; the field
    [Runtime] is [MovieRuntime] here, next to the type of that name. *)
Record Movie := mkMovie {
  ID : Z;
  CreatedAt : Time;
  Title : string;
  Year : Z;
  MovieRuntime : Runtime;
  Genres : slice string;
  Version : Z;
}.

(** Modelled from the spec: the [Filters] type and its helpers (the filters
    file is not part of the sources).  The sort field names a column, with
    an optional leading minus sign for the descending direction;
    [limit = pageSize] and [offset = (page - 1) * pageSize]. *)
Record Filters := mkFilters {
  Page : Z;
  PageSize : Z;
  Sort : string;
  SortSafelist : list string;
}.

(** Modelled from the spec: [sortColumn], the sort field without its sign. *)
Definition sortColumn (f : Filters) : string :=
  match Sort f with
  | String "-" column => column
  | s => s
  end.

(** Modelled from the spec: [sortDirection], descending for a leading minus
    sign and ascending otherwise. *)
Definition sortDirection (f : Filters) : string :=
  if strings.HasPrefix (Sort f) "-" then "DESC" else "ASC".

(** Modelled from the spec: [limit] is the page size. *)
Definition limit (f : Filters) : Z := PageSize f.

(** Modelled from the spec: [offset] is [(page - 1) * pageSize]. *)
Definition offset (f : Filters) : Z := (Page f - 1) * PageSize f.

Module Metadata.
(** Modelled from the spec: the [Metadata] type (same missing file): current
    page, page size, first and last page, total records. *)
Record t := mk {
  CurrentPage : Z;
  PageSize : Z;
  FirstPage : Z;
  LastPage : Z;
  TotalRecords : Z;
}.
Definition zero : t := mk 0 0 0 0 0.
End Metadata.

(** Modelled from the spec: [calculateMetadata] (same missing file), with its
    operands in the order of the call in [GetAll].  All fields are zero when
    there is no record; the last page is the number of pages that hold
    [totalRecords] records. *)
Definition calculateMetadata (totalRecords pageSize page : Z) : Metadata.t :=
  if totalRecords =? 0 then Metadata.zero
  else Metadata.mk page pageSize 1 ((totalRecords + pageSize - 1) / pageSize) totalRecords.

Module MovieModel.

(** The methods take the store and the fault of the environment on their
    one call to it; those with a pointer argument return the record as the
    call leaves it. *)

Definition Insert (db : store.Database) (fault : option store.fault) (now : Time)
    (movie : Movie) : store.Database * Movie * option error :=
  let '(db', rows) :=
    store.send fault db
      (store.insert_movie now (Title movie) (Year movie) (MovieRuntime movie)
         (Genres movie)) in
  match store.Scan rows with
  | Ok (id, created_at, version) =>
      (db', mkMovie id created_at (Title movie) (Year movie) (MovieRuntime movie)
              (Genres movie) version, None)
  | Err err => (db', movie, Some err)
  end.

Definition Update (db : store.Database) (fault : option store.fault) (movie : Movie)
  : store.Database * Movie * option error :=
  let '(db', rows) :=
    store.send fault db
      (store.update_movie (Title movie) (Year movie) (MovieRuntime movie)
         (Genres movie) (ID movie) (Version movie)) in
  match store.Scan rows with
  | Ok version =>
      (db', mkMovie (ID movie) (CreatedAt movie) (Title movie) (Year movie)
              (MovieRuntime movie) (Genres movie) version, None)
  | Err err =>
      if errors.Is (Some err) (Some sql.ErrNoRows)
      then (db', movie, Some ErrEditConflict)
      else (db', movie, Some err)
  end.

Definition Delete (db : store.Database) (fault : option store.fault) (id : Z)
  : store.Database * option error :=
  if id <? 1 then (db, Some ErrRecordNotFound)
  else
    match store.send fault db (store.delete_movie id) with
    | (db', Err err) => (db', Some err)
    | (db', Ok res) =>
        let rowsAffected := store.rows_affected res in
        match store.rows_affected_err res with
        | Some err =>
            if rowsAffected =? 0 then (db', Some ErrRecordNotFound)
            else (db', Some err)
        | None => (db', None)
        end
    end.

Definition Get (db : store.Database) (fault : option store.fault) (id : Z)
  : option Movie * option error :=
  if id <? 1 then (None, Some ErrRecordNotFound)
  else
    let '(_, rows) := store.send fault db (store.select_movie id) in
    match store.Scan rows with
    | Ok (id', r) =>
        (Some (mkMovie id' (store.r_created_at r) (store.r_title r) (store.r_year r)
                 (store.r_runtime r) (store.r_genres r) (store.r_version r)), None)
    | Err err =>
        if errors.Is (Some err) (Some sql.ErrNoRows)
        then (None, Some ErrRecordNotFound)
        else (None, Some err)
    end.

(** One round of the [rows.Next()] loop: the window count is scanned into
    [totalRecords], the columns into a fresh [Movie].  The genres are scanned
    into [pq.Array(movie.Genres)], a copy of the slice header, so the
    [Genres] of the record stay nil. *)
Definition scan_row (acc : list Movie * Z) (row : Z * Z * store.movie_row)
  : list Movie * Z :=
  let '(count, id, r) := row in
  (acc.1 ++ [mkMovie id (store.r_created_at r) (store.r_title r) (store.r_year r)
               (store.r_runtime r) None (store.r_version r)],
   count).

Definition GetAll (pg : store.engine) (db : store.Database) (fault : option store.fault)
    (title : string) (genres : slice string) (filter : Filters)
  : option (list Movie) * Metadata.t * option error :=
  match store.send fault db
          (store.select_movies pg title genres (sortColumn filter) (sortDirection filter)
             (limit filter) (offset filter)) with
  | (_, Err err) => (None, Metadata.zero, Some err)
  | (_, Ok rows) =>
      let '(movies, totalRecords) := fold_left scan_row rows ([], 0) in
      let metadata := calculateMetadata totalRecords (PageSize filter) (Page filter) in
      (Some movies, metadata, None)
  end.


End MovieModel.

(* ===================================================================== *)
(** ** Package [data]: validation of a movie, permissions *)
(* ===================================================================== *)

(** The elements of a slice; a nil slice has none. *)
Definition elems {A} (s : slice A) : list A :=
  match s with
  | Some l => l
  | None => []
  end.

Definition is_nil_slice {A} (s : slice A) : bool :=
  match s with
  | Some _ => false
  | None => true
  end.

(** [year_now] is the reading of [time.Now().Year()]. *)
Definition ValidateMovie (year_now : Z) (v : validator.Validator) (movie : Movie)
  : validator.Validator :=
  let v := validator.Check v (negb (String.eqb (Title movie) EmptyString))
             "title" "must be provided" in
  let v := validator.Check v (Nat.leb (String.length (Title movie)) 500)
             "title" "must not be more than 500 bytes long" in
  let v := validator.Check v (negb (Year movie =? 0)) "year" "must be provided" in
  let v := validator.Check v (1888 <=? Year movie) "year" "must be greater than 1888" in
  let v := validator.Check v (Year movie <=? int32 year_now)
             "year" "must not be in the future" in
  let v := validator.Check v (negb (MovieRuntime movie =? 0)) "runtime" "must be provided" in
  let v := validator.Check v (0 <? MovieRuntime movie)
             "runtime" "must be a positive integer" in
  let v := validator.Check v (negb (is_nil_slice (Genres movie)))
             "genres" "must be provided" in
  let v := validator.Check v (Nat.leb 1 (length (elems (Genres movie))))
             "genres" "must contain at least 1 genre" in
  let v := validator.Check v (Nat.leb (length (elems (Genres movie))) 5)
             "genres" "must not contain more than 5 genres" in
  validator.Check v (validator.Unique (elems (Genres movie)))
    "genres" "must not contain duplicate values".

(** The inverse of the base-32 encoder on texts without padding: the value
    of a character of the alphabet, the five bytes of eight values, and the
    bytes of a text.  It serves to show that the encoder loses nothing. *)
Definition base32_value (c : ascii) : Z :=
  match index_byte base32.encodeStd c with
  | Some i => Z.of_nat i
  | None => 0
  end.

Definition unquantum (v0 v1 v2 v3 v4 v5 v6 v7 : Z) : list Z :=
  [ Z.lor (Z.shiftl v0 3) (Z.shiftr v1 2);
    Z.lor (Z.shiftl (Z.land v1 3) 6) (Z.lor (Z.shiftl v2 1) (Z.shiftr v3 4));
    Z.lor (Z.shiftl (Z.land v3 15) 4) (Z.shiftr v4 1);
    Z.lor (Z.shiftl (Z.land v4 1) 7) (Z.lor (Z.shiftl v5 2) (Z.shiftr v6 3));
    Z.lor (Z.shiftl (Z.land v6 7) 5) v7 ].

Definition bytes_of (n : nat) (l : list Z) : string :=
  string_of_list_ascii (List.map byte_chr (firstn n l)).

Fixpoint base32_decode (s : string) : string :=
  let v := base32_value in
  match s with
  | String c0 (String c1 (String c2 (String c3 (String c4 (String c5 (String c6
      (String c7 rest))))))) =>
      (bytes_of 5 (unquantum (v c0) (v c1) (v c2) (v c3) (v c4) (v c5) (v c6) (v c7))
         ++ base32_decode rest)%string
  | String c0 (String c1 (String c2 (String c3 (String c4 (String c5 (String c6
      EmptyString)))))) =>
      bytes_of 4 (unquantum (v c0) (v c1) (v c2) (v c3) (v c4) (v c5) (v c6) 0)
  | String c0 (String c1 (String c2 (String c3 (String c4 EmptyString)))) =>
      bytes_of 3 (unquantum (v c0) (v c1) (v c2) (v c3) (v c4) 0 0 0)
  | String c0 (String c1 (String c2 (String c3 EmptyString))) =>
      bytes_of 2 (unquantum (v c0) (v c1) (v c2) (v c3) 0 0 0 0)
  | String c0 (String c1 EmptyString) =>
      bytes_of 1 (unquantum (v c0) (v c1) 0 0 0 0 0 0)
  | _ => EmptyString
  end.

(** The value read back from the character written for [x]. *)
Definition written (x : Z) : Z := base32_value (base32.encode x).

(** Facts about one or two bytes, decided by running through all of them. *)
Definition byte_values : list Z := List.map Z.of_nat (seq 0 256).

Definition for_all_bytes (p : Z -> bool) : bool := forallb p byte_values.

Definition one_byte_facts (a : Z) : bool :=
  (Z.shiftl (written (Z.shiftr a 3)) 3 =? Z.shiftl (Z.shiftr a 3) 3)
  && (Z.lor (Z.shiftl (Z.shiftr a 3) 3) (Z.land a 7) =? a)
  && (Z.shiftl (written (base32.shr a 1)) 1 =? Z.shiftl (base32.shr a 1) 1)
  && (Z.lor (Z.shiftl (Z.shiftr a 6) 6)
        (Z.lor (Z.shiftl (base32.shr a 1) 1) (Z.land a 1)) =? a)
  && (Z.lor (Z.shiftl (Z.shiftr a 4) 4) (Z.land a 15) =? a)
  && (Z.shiftl (written (base32.shr a 2)) 2 =? Z.shiftl (base32.shr a 2) 2)
  && (Z.lor (Z.shiftl (Z.shiftr a 7) 7)
        (Z.lor (Z.shiftl (base32.shr a 2) 2) (Z.land a 3)) =? a)
  && (written (Z.land a 0x1F) =? Z.land a 31)
  && (Z.lor (Z.shiftl (Z.shiftr a 5) 5) (Z.land a 31) =? a).

Definition two_byte_facts (a b : Z) : bool :=
  let e1 := written (Z.lor (base32.shl a 2) (base32.shr b 6)) in
  let e3 := written (Z.lor (base32.shl a 4) (base32.shr b 4)) in
  let e4 := written (Z.lor (base32.shl a 1) (Z.shiftr b 7)) in
  let e6 := written (Z.lor (base32.shl a 3) (Z.shiftr b 5)) in
  (Z.shiftr e1 2 =? Z.land a 7)
  && (Z.shiftl (Z.land e1 3) 6 =? Z.shiftl (Z.shiftr b 6) 6)
  && (Z.shiftr e3 4 =? Z.land a 1)
  && (Z.shiftl (Z.land e3 15) 4 =? Z.shiftl (Z.shiftr b 4) 4)
  && (Z.shiftr e4 1 =? Z.land a 15)
  && (Z.shiftl (Z.land e4 1) 7 =? Z.shiftl (Z.shiftr b 7) 7)
  && (Z.shiftr e6 3 =? Z.land a 3)
  && (Z.shiftl (Z.land e6 7) 5 =? Z.shiftl (Z.shiftr b 5) 5).

(** [strings.Join]. *)
Fixpoint Join (elems : list string) (sep : string) : string :=
  match elems with
  | [] => EmptyString
  | [a] => a
  | a :: rest => (a ++ sep ++ Join rest sep)%string
  end.

(** The calls of [ValidateMovie], in order. *)
Definition movie_checks (year_now : Z) (movie : Movie) : list validator.check :=
  [ validator.mkCheck (negb (String.eqb (Title movie) EmptyString))
      "title" "must be provided";
    validator.mkCheck (Nat.leb (String.length (Title movie)) 500)
      "title" "must not be more than 500 bytes long";
    validator.mkCheck (negb (Year movie =? 0)) "year" "must be provided";
    validator.mkCheck (1888 <=? Year movie) "year" "must be greater than 1888";
    validator.mkCheck (Year movie <=? int32 year_now) "year" "must not be in the future";
    validator.mkCheck (negb (MovieRuntime movie =? 0)) "runtime" "must be provided";
    validator.mkCheck (0 <? MovieRuntime movie) "runtime" "must be a positive integer";
    validator.mkCheck (negb (is_nil_slice (Genres movie))) "genres" "must be provided";
    validator.mkCheck (Nat.leb 1 (length (elems (Genres movie))))
      "genres" "must contain at least 1 genre";
    validator.mkCheck (Nat.leb (length (elems (Genres movie))) 5)
      "genres" "must not contain more than 5 genres";
    validator.mkCheck (validator.Unique (elems (Genres movie)))
      "genres" "must not contain duplicate values" ].

(** [type Permissions \[\]string]. *)
Definition Permissions := list string.

(** The loop of [Include] over the indices of the slice. *)
Fixpoint Include (p : Permissions) (code : string) : bool :=
  match p with
  | [] => false
  | c :: p' => if String.eqb c code then true else Include p' code
  end.

(** The tables that the two queries of the permission model name:
    [permissions] with columns [id] and [code], [users_permissions] with
    columns [user_id] and [permission_id], and the ids of [users].  Their
    constraints are not in the sources: an insert that the server refuses is
    a fault of the call. *)
Record permission_tables := mkPermissionTables {
  pt_users : list Z;
  pt_permissions : list (Z * string);
  pt_users_permissions : list (Z * Z);
}.

(** [SELECT permissions.code FROM permissions INNER JOIN users_permissions ON
    users_permissions.permission_id = permissions.id INNER JOIN users ON
    users_permissions.user_id = users.id WHERE users.id = $1].  The order of
    the rows is the server's choice. *)
Definition select_codes (userID : Z) (t : permission_tables) : list string :=
  p ← pt_permissions t;
  up ← pt_users_permissions t;
  u ← pt_users t;
  if (up.2 =? p.1) && (up.1 =? u) && (u =? userID) then [p.2] else [].

(** [INSERT INTO users_permissions SELECT $1, permissions.id FROM permissions
    WHERE permissions.code = ANY($2)]; a nil slice of codes arrives as
    [NULL] and selects nothing. *)
Definition insert_grants (userID : Z) (codes : slice string) (t : permission_tables)
  : permission_tables :=
  mkPermissionTables (pt_users t) (pt_permissions t)
    (pt_users_permissions t ++
     (p ← pt_permissions t;
      if existsb (String.eqb p.2) (elems codes) then [(userID, p.1)] else [])).

Module PermissionModel.

(** The rows are appended to a nil slice in the order they arrive. *)
Definition GetAllForUser (t : permission_tables) (fault : option store.fault) (userID : Z)
  : Permissions * option error :=
  match fault with
  | Some f => ([], Some (store.fault_error f))
  | None => (fold_left (fun permissions permission => permissions ++ [permission])
               (select_codes userID t) [], None)
  end.

Definition AddForUser (t : permission_tables) (fault : option store.fault) (userID : Z)
    (codes : slice string) : permission_tables * option error :=
  match fault with
  | Some (store.lost_request e) => (t, Some e)
  | Some (store.lost_answer e) => (insert_grants userID codes t, Some e)
  | None => (insert_grants userID codes t, None)
  end.

End PermissionModel.

(** Two users, two permissions, and one grant. *)
Definition sample_tables : permission_tables :=
  mkPermissionTables [7; 8] [(1, "movies:read"); (2, "movies:write")]%string [(8, 1)].

(* ===================================================================== *)
(** ** Notions used in the statements *)
(* ===================================================================== *)

(** The row an accepted update leaves behind, and the record it returns. *)
Definition updated_row (r : store.movie_row) (movie : Movie) : store.movie_row :=
  store.mkMovieRow (store.r_created_at r) (Title movie) (Year movie) (MovieRuntime movie)
    (Genres movie) (store.r_version r + 1).

Definition bumped (movie : Movie) (version : Z) : Movie :=
  mkMovie (ID movie) (CreatedAt movie) (Title movie) (Year movie)
    (MovieRuntime movie) (Genres movie) version.

(** The states the store can be in: the sequence is ahead of every key. *)
Definition store_ok (db : store.Database) : Prop :=
  1 ≤ store.movies_id_seq db ∧
  ∀ id r, store.movies db !! id = Some r → 1 ≤ id < store.movies_id_seq db.

(** A store with one movie, and the record a client holds of it. *)
Definition inception_row : store.movie_row :=
  store.mkMovieRow 1000 "Inception" 2010 148 (Some ["scifi"; "thriller"]) 1.

Definition one_movie : store.Database :=
  store.mkDatabase {[ 1 := inception_row ]} 2 ∅.

Definition inception : Movie :=
  mkMovie 1 1000 "Inception" 2010 148 (Some ["scifi"; "thriller"]) 1.


(** A sample engine: text in byte order, and a text search that looks for
    the query as a whole word of the title. *)
Definition byte_order : store.engine :=
  store.mkEngine
    (fun title q => existsb (String.eqb q) (strings.Split title " "))
    String.leb String.leb_total.

(** Lower-case hexadecimal text of a byte string. *)
Fixpoint hex (s : string) : string :=
  match s with
  | EmptyString => EmptyString
  | String c t =>
      String (strconv.lowerhex (Z.shiftr (byte_val c) 4))
        (String (strconv.lowerhex (Z.land (byte_val c) 15)) (hex t))
  end.

(** The relation decided by a boolean order. *)
Definition holds {A} (le : A -> A -> bool) (x y : A) : Prop := le x y = true.

(** The record that the listing returns for a row. *)
Definition listed (kv : Z * store.movie_row) : Movie :=
  mkMovie kv.1 (store.r_created_at kv.2) (store.r_title kv.2) (store.r_year kv.2)
    (store.r_runtime kv.2) None (store.r_version kv.2).


Definition sample_source : rand.source :=
  rand.mkSource None (fun i => byte_chr (Z.of_nat i)).

(** Byte classes used to describe the inputs of the JSON functions. *)
Fixpoint all_bytes (p : ascii -> bool) (s : string) : bool :=
  match s with
  | EmptyString => true
  | String c t => p c && all_bytes p t
  end.

Definition is_digit (c : ascii) : bool := (48 <=? byte_val c) && (byte_val c <=? 57).

(** ASCII bytes that stand for themselves between double quotes. *)
Definition is_literal (c : ascii) : bool :=
  (byte_val c <? 128) && negb (byte_val c =? 34) && negb (byte_val c =? 92)
  && negb (byte_val c =? 10).

Definition not_space (c : ascii) : bool := negb (byte_val c =? 32).

Definition is_sign_or_digit (c : ascii) : bool := is_digit c || (byte_val c =? 45).

(** Printable ASCII other than the double quote and the backslash: the bytes
    [strconv.Quote] copies unchanged. *)
Definition is_verbatim (c : ascii) : bool :=
  (32 <=? byte_val c) && (byte_val c <=? 126)
  && negb (byte_val c =? 34) && negb (byte_val c =? 92).

(* ===================================================================== *)
(** * Theorems *)
(* ===================================================================== *)

Lemma errors_New_fresh (t1 t2 : string) (h : errors.heap) :
  let '(e1, h1) := errors.New t1 h in
  let '(e2, _) := errors.New t2 h1 in
  errors.Is (Some e1) (Some e2) = false ∧ errors.Is (Some e2) (Some e1) = false.
Proof.
  cbn. split; apply Pos.eqb_neq; lia.
Qed.

(** C4. [ErrEditConflict] and [ErrRecordNotFound] are distinct error values:
    neither satisfies [errors.Is] against the other (in either direction),
    while their messages are the same text, "record not found". *)
Theorem sentinels_distinct_same_text :
  errors.Is (Some ErrEditConflict) (Some ErrRecordNotFound) = false ∧
  errors.Is (Some ErrRecordNotFound) (Some ErrEditConflict) = false ∧
  ErrEditConflict ≠ ErrRecordNotFound ∧
  errors.Error ErrEditConflict = errors.Error ErrRecordNotFound ∧
  errors.Error ErrEditConflict = "record not found"%string.
Proof.
  repeat split; try reflexivity. discriminate.
Qed.

(* --------------------------------------------------------------------- *)
(** ** Validator *)

Section ValidatorFacts.
Import validator.
Implicit Types (v : Validator) (key message : string) (cs : list check).

Lemma Check_ok v key message : Check v true key message = v.
Proof. reflexivity. Qed.

Lemma Check_failed_fresh v key message :
  Errors v !! key = None →
  Errors (Check v false key message) = <[key := message]> (Errors v).
Proof. intros H. unfold Check, AddError; cbn. by rewrite H. Qed.

Lemma Check_present v ok key message m0 :
  Errors v !! key = Some m0 → Check v ok key message = v.
Proof. intros H. unfold Check, AddError. destruct ok; cbn; [done|]. by rewrite H. Qed.

Lemma Check_lookup v ok key message k :
  Errors (Check v ok key message) !! k =
    match Errors v !! k with
    | Some m => Some m
    | None => if negb ok && String.eqb key k then Some message else None
    end.
Proof.
  unfold Check, AddError. destruct ok; cbn.
  - by destruct (Errors v !! k).
  - destruct (String.eqb_spec key k) as [->|Hne].
    + destruct (Errors v !! k) eqn:E; [done|]. cbn. by rewrite lookup_insert_eq.
    + destruct (Errors v !! key) eqn:E.
      * by destruct (Errors v !! k).
      * cbn. rewrite lookup_insert_ne by done. by destruct (Errors v !! k).
Qed.

Lemma run_lookup cs : ∀ v k,
  Errors (run v cs) !! k =
    match Errors v !! k with
    | Some m => Some m
    | None => first_failure k cs
    end.
Proof.
  induction cs as [|c cs IH]; intros v k; cbn.
  - by destruct (Errors v !! k).
  - unfold run in IH. rewrite IH, Check_lookup.
    destruct (Errors v !! k); [done|].
    by destruct (negb (c_ok c) && String.eqb (c_key c) k).
Qed.

Lemma Valid_empty v : Valid v = true ↔ Errors v = ∅.
Proof.
  unfold Valid. rewrite Nat.eqb_eq. apply map_size_empty_iff.
Qed.

End ValidatorFacts.

(** C8. [Check] leaves the validator alone when the condition holds; when it
    fails and the field has no message yet, the message is recorded under the
    field; once a field has a message, every later [Check] for that field is
    a no-op.  Hence after any sequence of [Check] calls a field carries the
    message it had before, or else the message of its first failing check.
    [Valid] is true exactly when the error map is empty. *)
Theorem Check_first_message_wins :
  ∀ (v : validator.Validator) (field : string),
    (∀ message, validator.Check v true field message = v) ∧
    (∀ message, validator.Errors v !! field = None →
       validator.Errors (validator.Check v false field message) !! field = Some message ∧
       ∀ k, k ≠ field →
         validator.Errors (validator.Check v false field message) !! k = validator.Errors v !! k) ∧
    (∀ ok m1 m2, validator.Errors v !! field = Some m1 →
       validator.Check v ok field m2 = v) ∧
    (∀ m1 m2, validator.Errors v !! field = None →
       validator.Errors
         (validator.Check (validator.Check v false field m1) false field m2) !! field
       = Some m1) ∧
    (∀ cs, validator.Errors (validator.run v cs) !! field =
       match validator.Errors v !! field with
       | Some m => Some m
       | None => validator.first_failure field cs
       end) ∧
    (validator.Valid v = true ↔ validator.Errors v = ∅) ∧
    (∀ cs, validator.Valid (validator.run validator.New cs) = true ↔
           ∀ k, validator.first_failure k cs = None).
Proof.
  intros v field. split_and!.
  - reflexivity.
  - intros message H. split.
    + rewrite Check_failed_fresh by done. apply lookup_insert_eq.
    + intros k Hk. rewrite Check_failed_fresh by done. by apply lookup_insert_ne.
  - intros ok m1 m2 H. by eapply Check_present.
  - intros m1 m2 H. rewrite !Check_lookup, H. cbn. by rewrite String.eqb_refl.
  - intros cs. apply run_lookup.
  - apply Valid_empty.
  - intros cs. rewrite Valid_empty. split.
    + intros H k.
      pose proof (run_lookup cs validator.New k) as E. rewrite H in E.
      cbn in E. by rewrite lookup_empty in E.
    + intros H. apply map_eq. intros k.
      rewrite run_lookup, H. cbn. by rewrite !lookup_empty.
Qed.

(* --------------------------------------------------------------------- *)
(** ** Bytes and strings *)

Lemma byte_val_inj (c d : ascii) : byte_val c = byte_val d → c = d.
Proof.
  unfold byte_val. intros H. apply N2Z.inj in H.
  rewrite <- (ascii_N_embedding c), <- (ascii_N_embedding d). by rewrite H.
Qed.

Lemma ascii_eqb_byte (c d : ascii) : Ascii.eqb c d = (byte_val c =? byte_val d).
Proof.
  destruct (Ascii.eqb_spec c d) as [->|Hne].
  - by rewrite Z.eqb_refl.
  - symmetry. apply Z.eqb_neq. intros H. by apply Hne, byte_val_inj.
Qed.

Lemma byte_val_range (c : ascii) : 0 ≤ byte_val c < 256.
Proof.
  unfold byte_val. pose proof (N_ascii_bounded c). lia.
Qed.

Lemma byte_val_chr (z : Z) : 0 ≤ z < 256 → byte_val (byte_chr z) = z.
Proof.
  intros H. unfold byte_val, byte_chr.
  rewrite N_ascii_embedding by (rewrite Z.mod_small by lia; lia).
  rewrite Z.mod_small by lia. lia.
Qed.

Lemma all_bytes_app p (s t : string) :
  all_bytes p (s ++ t) = all_bytes p s && all_bytes p t.
Proof. induction s as [|c s IH]; simpl; [done|]. by rewrite IH, andb_assoc. Qed.

Lemma all_bytes_impl (p q : ascii → bool) (s : string) :
  (∀ c, p c = true → q c = true) → all_bytes p s = true → all_bytes q s = true.
Proof.
  intros Hpq. induction s as [|c s IH]; cbn; [done|].
  rewrite !andb_true_iff. intros [? ?]. auto.
Qed.

Lemma take_bytes_app (s t : string) : take_bytes (String.length s) (s ++ t) = s.
Proof. induction s as [|c s IH]; simpl; [by destruct t|]. by rewrite IH. Qed.

Lemma drop_bytes_app (s t : string) : drop_bytes (String.length s) (s ++ t) = t.
Proof. induction s as [|c s IH]; simpl; [by destruct t|]. done. Qed.

Lemma index_byte_absent (s : string) (q : ascii) :
  all_bytes (fun c => negb (byte_val c =? byte_val q)) s = true →
  index_byte s q = None.
Proof.
  induction s as [|c s IH]; cbn; [done|].
  rewrite andb_true_iff, negb_true_iff. intros [Hc Hs].
  rewrite ascii_eqb_byte, Hc, IH; done.
Qed.

Lemma index_byte_end (s t : string) (q : ascii) :
  all_bytes (fun c => negb (byte_val c =? byte_val q)) s = true →
  index_byte (s ++ String q t) q = Some (String.length s).
Proof.
  induction s as [|c s IH]; simpl.
  - by rewrite Ascii.eqb_refl.
  - rewrite andb_true_iff, negb_true_iff. intros [Hc Hs].
    rewrite ascii_eqb_byte, Hc, IH; done.
Qed.

Lemma ValidString_ascii (s : string) :
  all_bytes (fun c => byte_val c <? 128) s = true → utf8.ValidString s = true.
Proof.
  induction s as [|c s IH]; cbn; [done|].
  rewrite andb_true_iff. intros [Hc Hs].
  unfold utf8.RuneSelf. rewrite Hc. auto.
Qed.

Lemma string_app_cons (x : ascii) (a b : string) :
  (String x a ++ b)%string = String x (a ++ b).
Proof. reflexivity. Qed.

Lemma string_app_assoc (a b c : string) : ((a ++ b) ++ c = a ++ (b ++ c))%string.
Proof. induction a as [|x a IH]; [done|]. by rewrite !string_app_cons, IH. Qed.

Lemma string_app_nil_r (a : string) : (a ++ "" = a)%string.
Proof. induction a as [|x a IH]; [done|]. by rewrite string_app_cons, IH. Qed.

(** Destructs the integer comparisons of the goal and of the hypotheses and
    leaves linear arithmetic. *)
Ltac zbool :=
  repeat match goal with
    | |- context [Z.ltb ?a ?b] => destruct (Z.ltb_spec a b)
    | |- context [Z.leb ?a ?b] => destruct (Z.leb_spec a b)
    | |- context [Z.eqb ?a ?b] => destruct (Z.eqb_spec a b)
    | H : context [Z.ltb ?a ?b] |- _ => destruct (Z.ltb_spec a b)
    | H : context [Z.leb ?a ?b] |- _ => destruct (Z.leb_spec a b)
    | H : context [Z.eqb ?a ?b] |- _ => destruct (Z.eqb_spec a b)
    end;
  simpl in *; try done; try lia.

(* --------------------------------------------------------------------- *)
(** ** [strconv.Unquote] and [strings.Split] on plain text *)

Lemma Unquote_literal (s : string) :
  all_bytes is_literal s = true → strconv.Unquote (json_string s) = Some s.
Proof.
  intros Hs.
  assert (Hq : all_bytes (fun c => negb (byte_val c =? byte_val ch_dquote)) s = true).
  { revert Hs. apply all_bytes_impl. intros c. unfold is_literal.
    change (byte_val ch_dquote) with 34. zbool. }
  assert (Hb : all_bytes (fun c => negb (byte_val c =? byte_val ch_backslash)) s = true).
  { revert Hs. apply all_bytes_impl. intros c. unfold is_literal.
    change (byte_val ch_backslash) with 92. zbool. }
  assert (Hn : all_bytes (fun c => negb (byte_val c =? byte_val ch_newline)) s = true).
  { revert Hs. apply all_bytes_impl. intros c. unfold is_literal.
    change (byte_val ch_newline) with 10. zbool. }
  assert (Ha : all_bytes (fun c => byte_val c <? 128) s = true).
  { revert Hs. apply all_bytes_impl. intros c. unfold is_literal. zbool. }
  unfold strconv.Unquote, strconv.unquote, json_string.
  destruct (s ++ str1 ch_dquote)%string as [|c0 t0] eqn:E.
  { destruct s; discriminate. }
  rewrite <- E. unfold str1.
  rewrite (index_byte_end s EmptyString ch_dquote Hq).
  rewrite take_bytes_app.
  change (drop_bytes (S (String.length s)) (s ++ String ch_dquote ""))
    with (drop_bytes (S (String.length s)) (s ++ String ch_dquote "")).
  assert (Hd : drop_bytes (S (String.length s)) (s ++ String ch_dquote "") = EmptyString).
  { clear. induction s as [|c s IH]; simpl; [done|]. apply IH. }
  rewrite Hd.
  unfold contains_byte. rewrite (index_byte_absent s _ Hb), (index_byte_absent s _ Hn).
  rewrite (ValidString_ascii s Ha). reflexivity.
Qed.

Lemma not_space_eqb (c : ascii) : not_space c = true → Ascii.eqb " " c = false.
Proof.
  unfold not_space. rewrite ascii_eqb_byte. change (byte_val " ") with 32. zbool.
Qed.

Lemma genSplit_cons (sep cur : string) (c : ascii) (t : string) :
  strings.genSplit sep 0 cur (String c t) =
    if strings.HasPrefix (String c t) sep
    then cur :: strings.genSplit sep (String.length sep - 1) EmptyString t
    else strings.genSplit sep 0 (cur ++ str1 c) t.
Proof. reflexivity. Qed.

Lemma HasPrefix_space (c : ascii) (t : string) :
  strings.HasPrefix (String c t) " " = Ascii.eqb " " c.
Proof. simpl. apply andb_true_r. Qed.

Lemma genSplit_no_space (s cur : string) :
  all_bytes not_space s = true →
  strings.genSplit " " 0 cur s = [(cur ++ s)%string].
Proof.
  revert cur. induction s as [|c s IH]; intros cur.
  - intros _. simpl. by rewrite string_app_nil_r.
  - intros [Hc Hs]%andb_true_iff.
    rewrite genSplit_cons, HasPrefix_space, (not_space_eqb c Hc).
    rewrite IH by done. by rewrite string_app_assoc.
Qed.

Lemma genSplit_at_space (a rest cur : string) :
  all_bytes not_space a = true →
  strings.genSplit " " 0 cur (a ++ String " " rest) =
    (cur ++ a)%string :: strings.genSplit " " 0 EmptyString rest.
Proof.
  revert cur. induction a as [|c a IH]; intros cur.
  - intros _. by rewrite string_app_nil_r.
  - intros [Hc Ha]%andb_true_iff.
    rewrite string_app_cons, genSplit_cons, HasPrefix_space, (not_space_eqb c Hc).
    rewrite IH by done. by rewrite string_app_assoc.
Qed.

Lemma Split_two_words (a b : string) :
  all_bytes not_space a = true → all_bytes not_space b = true →
  strings.Split (a ++ String " " b) " " = [a; b].
Proof.
  intros Ha Hb. unfold strings.Split.
  rewrite genSplit_at_space by done. by rewrite genSplit_no_space.
Qed.

Example Unquote_forms :
  strconv.Unquote (json_string "102 mins") = Some "102 mins"%string ∧
  strconv.Unquote (json_string (String ch_backslash "x31 mins")) = Some "1 mins"%string ∧
  strconv.Unquote (String ch_bquote ("102 mins" ++ str1 ch_bquote)) = Some "102 mins"%string ∧
  strconv.Unquote "102 mins" = None ∧
  strconv.Unquote (String ch_dquote "102 mins") = None.
Proof. by vm_compute. Qed.

Example Split_forms :
  strings.Split "102 mins" " " = ["102"; "mins"]%string ∧
  strings.Split "102  mins" " " = ["102"; ""; "mins"]%string ∧
  strings.Split "102mins" " " = ["102mins"]%string ∧
  strings.Split " " " " = [""; ""]%string.
Proof. by vm_compute. Qed.

(* --------------------------------------------------------------------- *)
(** ** [strconv.ParseInt] and decimal text *)

Lemma parse_digits_cons (base maxVal n : Z) (c : ascii) (t : string) :
  strconv.parse_digits base maxVal n (String c t) =
    let b := byte_val c in
    let lower := Z.lor b 32 in
    let d :=
      if (48 <=? b) && (b <=? 57) then Some (b - 48)
      else if (97 <=? lower) && (lower <=? 122) then Some (lower - 97 + 10)
      else None in
    match d with
    | None => (0, Some strconv.ErrSyntax)
    | Some d =>
        if base <=? d then (0, Some strconv.ErrSyntax)
        else if (2 ^ 64 - 1) / base + 1 <=? n then (maxVal, Some strconv.ErrRange)
        else
          let n0 := uint64 (n * base) in
          let n1 := uint64 (n0 + d) in
          if (n1 <? n0) || (maxVal <? n1) then (maxVal, Some strconv.ErrRange)
          else strconv.parse_digits base maxVal n1 t
    end.
Proof. reflexivity. Qed.

(** Base 10 accepts decimal digits only. *)
Lemma parse_digits_only_digits (s : string) : ∀ maxVal n m,
  strconv.parse_digits 10 maxVal n s = (m, None) → all_bytes is_digit s = true.
Proof.
  induction s as [|c s IH]; intros maxVal n m H; [done|].
  rewrite parse_digits_cons in H. cbv zeta in H.
  change (all_bytes is_digit (String c s)) with (is_digit c && all_bytes is_digit s).
  unfold is_digit.
  destruct ((48 <=? byte_val c) && (byte_val c <=? 57)) eqn:Ed.
  - simpl. repeat case_match; try discriminate. eauto.
  - destruct ((97 <=? Z.lor (byte_val c) 32) && (Z.lor (byte_val c) 32 <=? 122)) eqn:El;
      [|discriminate].
    apply andb_true_iff in El as [El _]. apply Z.leb_le in El.
    destruct (10 <=? Z.lor (byte_val c) 32 - 97 + 10) eqn:E10; [discriminate|].
    apply Z.leb_gt in E10. lia.
Qed.

Lemma parse_digits_app (base maxVal : Z) (s1 s2 : string) : ∀ n,
  strconv.parse_digits base maxVal n (s1 ++ s2) =
    match strconv.parse_digits base maxVal n s1 with
    | (m, None) => strconv.parse_digits base maxVal m s2
    | r => r
    end.
Proof.
  induction s1 as [|c s1 IH]; intros n; [done|].
  rewrite string_app_cons, !parse_digits_cons. cbv zeta.
  repeat case_match; try done; simplify_eq.
  all: by rewrite IH; repeat case_match; simplify_eq.
Qed.

Lemma parse_one_digit (maxVal n d : Z) :
  0 ≤ n → 0 ≤ d < 10 → n * 10 + d ≤ maxVal → maxVal < 2 ^ 64 →
  strconv.parse_digits 10 maxVal n (str1 (byte_chr (48 + d))) = (n * 10 + d, None).
Proof.
  intros Hn Hd Hmax Hlt. unfold str1. rewrite parse_digits_cons. cbv zeta.
  rewrite byte_val_chr by lia.
  assert (E1 : (48 <=? 48 + d) && (48 + d <=? 57) = true) by zbool.
  rewrite E1. replace (48 + d - 48) with d by lia.
  assert (E2 : (10 <=? d) = false) by zbool. rewrite E2.
  assert (E3 : ((2 ^ 64 - 1) / 10 + 1 <=? n) = false).
  { apply Z.leb_gt. assert (n ≤ (2 ^ 64 - 1) / 10); [|lia].
    apply Z.div_le_lower_bound; lia. }
  rewrite E3. unfold uint64.
  rewrite (Z.mod_small (n * 10)) by lia. rewrite Z.mod_small by lia.
  assert (E4 : (n * 10 + d <? n * 10) || (maxVal <? n * 10 + d) = false) by zbool.
  by rewrite E4.
Qed.

Lemma digits_parse (f : nat) : ∀ n,
  0 ≤ n < 2 ^ (Z.of_nat f + 1) → n < 2 ^ 64 →
  ∃ D : string,
    (∀ acc, strconv.digits f n acc = (D ++ acc)%string) ∧
    all_bytes is_digit D = true ∧ D ≠ EmptyString ∧
    (∀ maxVal, n ≤ maxVal → maxVal < 2 ^ 64 →
       strconv.parse_digits 10 maxVal 0 D = (n, None)).
Proof.
  assert (Hone : ∀ n, 0 ≤ n < 10 → n < 2 ^ 64 →
    all_bytes is_digit (str1 (byte_chr (48 + n mod 10))) = true ∧
    str1 (byte_chr (48 + n mod 10)) ≠ EmptyString ∧
    (∀ maxVal, n ≤ maxVal → maxVal < 2 ^ 64 →
       strconv.parse_digits 10 maxVal 0 (str1 (byte_chr (48 + n mod 10))) = (n, None))).
  { intros n Hn H64. rewrite Z.mod_small by lia. split_and!.
    - unfold str1, all_bytes, is_digit. rewrite byte_val_chr by lia. zbool.
    - done.
    - intros maxVal ? ?. rewrite parse_one_digit by lia. f_equal. }
  induction f as [|f IH]; intros n Hn H64.
  - change (Z.of_nat 0 + 1) with 1 in Hn. change (2 ^ 1) with 2 in Hn.
    exists (str1 (byte_chr (48 + n mod 10))). split; [done|]. apply Hone; lia.
  - destruct (Z.ltb_spec n 10) as [Hlt|Hge].
    + exists (str1 (byte_chr (48 + n mod 10))). split; [|apply Hone; lia].
      intros acc. simpl. destruct (Z.ltb_spec n 10); [done|lia].
    + rewrite Nat2Z.inj_succ, <- Z.add_1_r, Z.pow_add_r in Hn by lia.
      change (2 ^ 1) with 2 in Hn.
      assert (Hq : 0 ≤ n / 10 < 2 ^ (Z.of_nat f + 1)).
      { split; [apply Z.div_pos; lia|].
        apply Z.div_lt_upper_bound; lia. }
      assert (Hq64 : n / 10 < 2 ^ 64).
      { apply Z.div_lt_upper_bound; lia. }
      destruct (IH (n / 10) Hq Hq64) as (D & Hacc & Hdig & Hne & Hparse).
      exists (D ++ str1 (byte_chr (48 + n mod 10)))%string. split_and!.
      * intros acc. simpl. destruct (Z.ltb_spec n 10); [lia|].
        rewrite Hacc. by rewrite string_app_assoc.
      * rewrite all_bytes_app, Hdig. simpl.
        pose proof (Z.mod_pos_bound n 10 ltac:(lia)).
        unfold is_digit. rewrite byte_val_chr by lia. zbool.
      * destruct D; done.
      * intros maxVal Hmax Hlt.
        pose proof (Z.mod_pos_bound n 10 ltac:(lia)).
        pose proof (Z.div_mod n 10 ltac:(lia)).
        rewrite parse_digits_app, (Hparse maxVal) by lia.
        rewrite parse_one_digit by lia. f_equal. lia.
Qed.

Lemma parse_digits_range (base maxVal : Z) (s : string) : ∀ n u,
  strconv.parse_digits base maxVal n s = (u, Some strconv.ErrRange) → u = maxVal.
Proof.
  induction s as [|c s IH]; intros n u H; [discriminate|].
  rewrite parse_digits_cons in H. cbv zeta in H.
  repeat case_match; simplify_eq; eauto.
Qed.

Lemma ParseUint_10_64 (s : string) :
  strconv.ParseUint s 10 64 =
    match s with
    | EmptyString => (0, Some strconv.ErrSyntax)
    | _ => strconv.parse_digits 10 (2 ^ 64 - 1) 0 s
    end.
Proof. by destruct s. Qed.

Lemma ParseInt_10_64 (c : ascii) (t : string) :
  strconv.ParseInt (String c t) 10 64 =
    let neg := Ascii.eqb c "-" in
    let s' := if Ascii.eqb c "+" || neg then t else String c t in
    let '(un, err) := strconv.ParseUint s' 10 64 in
    match err with
    | Some strconv.ErrSyntax | Some strconv.ErrBase | Some strconv.ErrBitSize => (0, err)
    | _ =>
        if negb neg && (2 ^ 63 <=? un) then (2 ^ 63 - 1, Some strconv.ErrRange)
        else if neg && (2 ^ 63 <? un) then (- 2 ^ 63, Some strconv.ErrRange)
        else (if neg then int64 (- int64 un) else int64 un, None)
    end.
Proof. reflexivity. Qed.

Lemma int64_small (x : Z) : - 2 ^ 63 ≤ x < 2 ^ 63 → int64 x = x.
Proof.
  intros H. unfold int64, wrap_signed.
  change (2 ^ (64 - 1)) with (2 ^ 63).
  destruct (Z.ltb_spec (x mod 2 ^ 64) (2 ^ 63)) as [Hlt|Hge].
  - destruct (Z.le_gt_cases 0 x).
    + rewrite Z.mod_small; lia.
    + rewrite <- (Z.mod_add x 1) in Hlt by lia. rewrite Z.mod_small in Hlt; lia.
  - destruct (Z.le_gt_cases 0 x).
    + rewrite Z.mod_small in Hge; lia.
    + rewrite <- (Z.mod_add x 1) by lia. rewrite Z.mod_small; lia.
Qed.

Lemma int64_min_neg : int64 (- int64 (2 ^ 63)) = - 2 ^ 63.
Proof. reflexivity. Qed.

(** The text accepted by [ParseInt] in base 10 is an optional sign followed
    by decimal digits. *)
Lemma ParseInt_text (s : string) (m : Z) :
  strconv.ParseInt s 10 64 = (m, None) →
  all_bytes is_literal s = true ∧ all_bytes not_space s = true.
Proof.
  destruct s as [|c t]; [discriminate|].
  rewrite ParseInt_10_64. cbv zeta.
  assert (Hd : ∀ u, all_bytes is_digit u = true →
            all_bytes is_literal u = true ∧ all_bytes not_space u = true).
  { intros u Hu. split; revert Hu; apply all_bytes_impl; intros x;
      unfold is_digit, is_literal, not_space; zbool. }
  assert (Hp : ∀ u un, strconv.ParseUint u 10 64 = (un, None) →
            all_bytes is_digit u = true).
  { intros u un. rewrite ParseUint_10_64. destruct u; [discriminate|].
    apply parse_digits_only_digits. }
  assert (Hr : ∀ u un, strconv.ParseUint u 10 64 = (un, Some strconv.ErrRange) →
            un = 2 ^ 64 - 1).
  { intros u un. rewrite ParseUint_10_64. destruct u; [discriminate|].
    apply parse_digits_range. }
  destruct (strconv.ParseUint _ 10 64) as [un err] eqn:E.
  destruct err as [[]|]; try discriminate.
  { apply Hr in E. subst un. destruct (Ascii.eqb c "-"); discriminate. }
  intros _. apply Hp in E.
  destruct (Ascii.eqb c "+" || Ascii.eqb c "-") eqn:Es.
  - destruct (Hd t E) as [H1 H2].
    change (all_bytes is_literal (String c t)) with (is_literal c && all_bytes is_literal t).
    change (all_bytes not_space (String c t)) with (not_space c && all_bytes not_space t).
    rewrite H1, H2, !andb_true_r.
    apply orb_true_iff in Es as [->%Ascii.eqb_eq | ->%Ascii.eqb_eq]; done.
  - by apply Hd.
Qed.

Lemma ParseInt_FormatInt (n : Z) :
  - 2 ^ 63 ≤ n < 2 ^ 63 → strconv.ParseInt (strconv.FormatInt n) 10 64 = (n, None).
Proof.
  intros Hn. unfold strconv.FormatInt.
  set (u := Z.abs n).
  assert (Hu : 0 ≤ u ≤ 2 ^ 63) by lia.
  assert (Hf : 0 ≤ u < 2 ^ (Z.of_nat (Z.to_nat (Z.log2 u)) + 1)).
  { rewrite Z2Nat.id by apply Z.log2_nonneg.
    destruct (Z.eq_dec u 0) as [->|Hne]; [done|].
    pose proof (Z.log2_spec u ltac:(lia)). rewrite Z.add_1_r. lia. }
  destruct (digits_parse _ u Hf ltac:(lia)) as (D & Hacc & Hdig & Hne & Hparse).
  rewrite Hacc, string_app_nil_r.
  specialize (Hparse (2 ^ 64 - 1) ltac:(lia) ltac:(lia)).
  destruct (Z.ltb_spec n 0) as [Hneg|Hpos].
  - rewrite ParseInt_10_64. cbv zeta. change (Ascii.eqb "-" "-") with true.
    rewrite orb_true_r, ParseUint_10_64.
    destruct D as [|d D]; [done|]. rewrite Hparse. simpl negb. simpl andb.
    destruct (Z.ltb_spec (2 ^ 63) u); [lia|]. f_equal.
    destruct (Z.eq_dec u (2 ^ 63)) as [E|E].
    + rewrite E, int64_min_neg. lia.
    + rewrite (int64_small u), int64_small; lia.
  - destruct D as [|d D]; [done|].
    apply andb_true_iff in Hdig as Hd. destruct Hd as [Hd _].
    rewrite ParseInt_10_64. cbv zeta.
    assert (E1 : Ascii.eqb d "-" = false).
    { rewrite ascii_eqb_byte. unfold is_digit in Hd. change (byte_val "-") with 45. zbool. }
    assert (E2 : Ascii.eqb d "+" = false).
    { rewrite ascii_eqb_byte. unfold is_digit in Hd. change (byte_val "+") with 43. zbool. }
    rewrite E1, E2. simpl orb. cbv iota. rewrite ParseUint_10_64, Hparse.
    simpl negb. simpl andb.
    destruct (Z.leb_spec (2 ^ 63) u); [lia|].
    f_equal. rewrite int64_small; lia.
Qed.

(* --------------------------------------------------------------------- *)
(** ** [Runtime]: encoding and decoding *)

Lemma UnmarshalJSON_parsed (r : Runtime) (s : string) (m : Z) :
  strconv.ParseInt s 10 64 = (m, None) →
  UnmarshalJSON r (json_string (s ++ " mins")) = (int32 m, None).
Proof.
  intros H. destruct (ParseInt_text s m H) as [Hl Hs].
  unfold UnmarshalJSON.
  rewrite Unquote_literal by (by rewrite all_bytes_app, Hl).
  change (s ++ " mins")%string with (s ++ String " " "mins")%string.
  rewrite Split_two_words by done.
  simpl. by rewrite H.
Qed.

Lemma int32_range (x : Z) : - 2 ^ 31 ≤ int32 x < 2 ^ 31.
Proof.
  unfold int32, wrap_signed. change (2 ^ (32 - 1)) with (2 ^ 31).
  pose proof (Z.mod_pos_bound x (2 ^ 32) ltac:(lia)).
  destruct (Z.ltb_spec (x mod 2 ^ 32) (2 ^ 31)); lia.
Qed.

Lemma int32_congruent (x : Z) : (int32 x - x) mod 2 ^ 32 = 0.
Proof.
  unfold int32, wrap_signed. change (2 ^ (32 - 1)) with (2 ^ 31).
  destruct (Z.ltb_spec (x mod 2 ^ 32) (2 ^ 31)).
  - rewrite Zminus_mod_idemp_l, Z.sub_diag. done.
  - replace (x mod 2 ^ 32 - 2 ^ 32 - x) with (x mod 2 ^ 32 - x + (-1) * 2 ^ 32) by lia.
    rewrite Z.mod_add by lia. rewrite Zminus_mod_idemp_l, Z.sub_diag. done.
Qed.

Lemma int32_small (x : Z) : - 2 ^ 31 ≤ x < 2 ^ 31 → int32 x = x.
Proof.
  intros H. pose proof (int32_range x). pose proof (int32_congruent x) as Hc.
  apply Z.mod_divide in Hc; [|lia]. destruct Hc as [k Hk].
  assert (k = 0) by lia. lia.
Qed.

(** C10. For every integer [n] of the 64-bit signed range (zero and the
    negative ones included) its decimal text is parsed back by [ParseInt], and
    [UnmarshalJSON] accepts the JSON string made of that text followed by
    " mins": no error, and the receiver becomes [n] converted to 32 bits,
    that is the value of the 32-bit range congruent to [n] modulo 2^32
    ([n] itself when it fits). *)
Theorem UnmarshalJSON_accepts_int64 (r : Runtime) (n : Z) :
  - 2 ^ 63 ≤ n < 2 ^ 63 →
  strconv.ParseInt (strconv.FormatInt n) 10 64 = (n, None) ∧
  UnmarshalJSON r (json_string (strconv.FormatInt n ++ " mins")) = (int32 n, None) ∧
  - 2 ^ 31 ≤ int32 n < 2 ^ 31 ∧
  (int32 n - n) mod 2 ^ 32 = 0 ∧
  (- 2 ^ 31 ≤ n < 2 ^ 31 → int32 n = n).
Proof.
  intros Hn. pose proof (ParseInt_FormatInt n Hn) as Hp. split_and!.
  - done.
  - by apply UnmarshalJSON_parsed.
  - apply int32_range.
  - apply int32_range.
  - apply int32_congruent.
  - apply int32_small.
Qed.

Lemma UnmarshalJSON_accepts_int64_witness :
  UnmarshalJSON 7 (json_string "0 mins") = (0, None) ∧
  UnmarshalJSON 7 (json_string "-5 mins") = (-5, None) ∧
  UnmarshalJSON 7 (json_string "4294967297 mins") = (1, None).
Proof.
  split_and!.
  - exact (proj1 (proj2 (UnmarshalJSON_accepts_int64 7 0 ltac:(lia)))).
  - exact (proj1 (proj2 (UnmarshalJSON_accepts_int64 7 (-5) ltac:(lia)))).
  - exact (proj1 (proj2 (UnmarshalJSON_accepts_int64 7 4294967297 ltac:(lia)))).
Defined.

Lemma byte_chr_val (c : ascii) : byte_chr (byte_val c) = c.
Proof.
  apply byte_val_inj. apply byte_val_chr, byte_val_range.
Qed.

Section QuoteFacts.
Variable unicode_print : Z → bool.

Lemma quote_loop_cons (quote c : ascii) (t : string) :
  strconv.quote_loop unicode_print quote 0 (String c t) =
    let '(r, width) :=
      if utf8.RuneSelf <=? byte_val c then utf8.DecodeRuneInString (String c t)
      else (byte_val c, 1%nat) in
    if Nat.eqb width 1 && (r =? utf8.RuneError) then
      (strconv.escape2 "x" ++ strconv.hex_of 2 (byte_val c)
         ++ strconv.quote_loop unicode_print quote 0 t)%string
    else
      (strconv.appendEscapedRune unicode_print r quote
         ++ strconv.quote_loop unicode_print quote (width - 1) t)%string.
Proof. reflexivity. Qed.

Lemma appendEscapedRune_verbatim (c : ascii) :
  is_verbatim c = true →
  strconv.appendEscapedRune unicode_print (byte_val c) ch_dquote = str1 c.
Proof.
  unfold is_verbatim. intros H.
  unfold strconv.appendEscapedRune, strconv.IsPrint, utf8.AppendRune.
  change (byte_val ch_dquote) with 34.
  assert (E1 : (byte_val c =? 34) || (byte_val c =? 92) = false) by zbool.
  assert (E2 : (byte_val c <=? 255) = true) by zbool.
  assert (E3 : (32 <=? byte_val c) && (byte_val c <=? 126) = true) by zbool.
  rewrite E1, E2, E3.
  assert (E4 : byte_val c mod 2 ^ 32 = byte_val c).
  { apply Z.mod_small. pose proof (byte_val_range c). lia. }
  rewrite E4.
  assert (E5 : (byte_val c <=? 127) = true) by zbool.
  rewrite E5. by rewrite byte_chr_val.
Qed.

Lemma quote_loop_verbatim (s : string) :
  all_bytes is_verbatim s = true →
  strconv.quote_loop unicode_print ch_dquote 0 s = s.
Proof.
  induction s as [|c s IH]; [done|].
  intros [Hc Hs]%andb_true_iff. rewrite quote_loop_cons.
  assert (E1 : (utf8.RuneSelf <=? byte_val c) = false).
  { unfold utf8.RuneSelf, is_verbatim in *. zbool. }
  rewrite E1.
  assert (E2 : (byte_val c =? utf8.RuneError) = false).
  { unfold utf8.RuneError, is_verbatim in *. zbool. }
  rewrite E2. simpl andb. cbv iota.
  rewrite appendEscapedRune_verbatim by done.
  change (1 - 1)%nat with 0%nat. by rewrite IH.
Qed.

Lemma Quote_verbatim (s : string) :
  all_bytes is_verbatim s = true →
  strconv.Quote unicode_print s = json_string s.
Proof.
  intros H. unfold strconv.Quote, json_string. by rewrite quote_loop_verbatim.
Qed.

End QuoteFacts.

Lemma digits_all_digit (f : nat) : ∀ n acc,
  0 ≤ n → all_bytes is_digit acc = true →
  all_bytes is_digit (strconv.digits f n acc) = true.
Proof.
  assert (Hd : ∀ n acc, 0 ≤ n → all_bytes is_digit acc = true →
    all_bytes is_digit (String (byte_chr (48 + n mod 10)) acc) = true).
  { intros n acc Hn Hacc.
    change (is_digit (byte_chr (48 + n mod 10)) && all_bytes is_digit acc = true).
    rewrite Hacc, andb_true_r. unfold is_digit.
    pose proof (Z.mod_pos_bound n 10 ltac:(lia)).
    rewrite byte_val_chr by lia. zbool. }
  induction f as [|f IH]; intros n acc Hn Hacc.
  - by apply Hd.
  - simpl. destruct (n <? 10); [by apply Hd|].
    apply IH; [apply Z.div_pos; lia | by apply Hd].
Qed.

Lemma FormatInt_text (n : Z) :
  all_bytes is_sign_or_digit (strconv.FormatInt n) = true.
Proof.
  unfold strconv.FormatInt.
  assert (H : all_bytes is_sign_or_digit
                (strconv.digits (Z.to_nat (Z.log2 (Z.abs n))) (Z.abs n) "") = true).
  { eapply all_bytes_impl; [|apply digits_all_digit; [lia|done]].
    intros c Hc. unfold is_sign_or_digit. by rewrite Hc. }
  destruct (n <? 0); [|done].
  change (is_sign_or_digit "-" && all_bytes is_sign_or_digit
            (strconv.digits (Z.to_nat (Z.log2 (Z.abs n))) (Z.abs n) "") = true).
  by rewrite H.
Qed.

Lemma MarshalJSON_text (unicode_print : Z → bool) (n : Runtime) :
  MarshalJSON unicode_print n = (json_string (strconv.FormatInt n ++ " min"), None).
Proof.
  unfold MarshalJSON. f_equal.
  change (fmt.Sprintf "%d min" n) with (strconv.FormatInt n ++ " min")%string.
  apply Quote_verbatim. rewrite all_bytes_app, andb_true_iff. split; [|done].
  generalize (FormatInt_text n). apply all_bytes_impl. intros c.
  unfold is_sign_or_digit, is_digit, is_verbatim. zbool.
Qed.

Lemma UnmarshalJSON_min_rejected (r : Runtime) (n : Z) :
  UnmarshalJSON r (json_string (strconv.FormatInt n ++ " min"))
  = (r, Some ErrInvalidRuntimeFormat).
Proof.
  assert (Hl : all_bytes is_literal (strconv.FormatInt n) = true).
  { generalize (FormatInt_text n). apply all_bytes_impl. intros c.
    unfold is_sign_or_digit, is_digit, is_literal. zbool. }
  assert (Hs : all_bytes not_space (strconv.FormatInt n) = true).
  { generalize (FormatInt_text n). apply all_bytes_impl. intros c.
    unfold is_sign_or_digit, is_digit, not_space. zbool. }
  unfold UnmarshalJSON.
  rewrite Unquote_literal by (by rewrite all_bytes_app, Hl).
  change (strconv.FormatInt n ++ " min")%string
    with (strconv.FormatInt n ++ String " " "min")%string.
  by rewrite Split_two_words.
Qed.

(** C2. What the code does at the specification's own example.  Encoding the runtime
    102 yields the JSON string "102 min", not "102 mins"; and for every
    runtime the encoder's output is refused by the decoder with
    [ErrInvalidRuntimeFormat], so no value round-trips.  The decoder alone
    behaves as specified: "102 mins" gives 102, while "102 minutes" and
    "abc mins" fail with [ErrInvalidRuntimeFormat]. *)
Theorem MarshalJSON_suffix_is_min (unicode_print : Z → bool) (r : Runtime) :
  MarshalJSON unicode_print 102 = (json_string "102 min", None) ∧
  fst (MarshalJSON unicode_print 102) ≠ json_string "102 mins" ∧
  (∀ n : Runtime,
     MarshalJSON unicode_print n = (json_string (strconv.FormatInt n ++ " min"), None) ∧
     UnmarshalJSON r (fst (MarshalJSON unicode_print n))
     = (r, Some ErrInvalidRuntimeFormat)) ∧
  UnmarshalJSON r (json_string "102 mins") = (102, None) ∧
  UnmarshalJSON r (json_string "102 minutes") = (r, Some ErrInvalidRuntimeFormat) ∧
  UnmarshalJSON r (json_string "abc mins") = (r, Some ErrInvalidRuntimeFormat).
Proof.
  split_and!.
  - apply (MarshalJSON_text unicode_print 102).
  - rewrite (MarshalJSON_text unicode_print 102). discriminate.
  - intros n. rewrite MarshalJSON_text. split; [done|]. apply UnmarshalJSON_min_rejected.
  - reflexivity.
  - reflexivity.
  - reflexivity.
Qed.

(* --------------------------------------------------------------------- *)
(** ** Tokens *)

Lemma string_length_app (a b : string) :
  String.length (a ++ b) = (String.length a + String.length b)%nat.
Proof. induction a as [|x a IH]; [done|]. rewrite string_app_cons. simpl. by rewrite IH. Qed.

Lemma string_ind5 (P : string → Prop) :
  P EmptyString →
  (∀ a, P (String a "")) →
  (∀ a b, P (String a (String b ""))) →
  (∀ a b c, P (String a (String b (String c "")))) →
  (∀ a b c d, P (String a (String b (String c (String d ""))))) →
  (∀ a b c d e rest, P rest →
     P (String a (String b (String c (String d (String e rest)))))) →
  ∀ s, P s.
Proof.
  intros H0 H1 H2 H3 H4 H5.
  assert (H : ∀ n s, (String.length s ≤ n)%nat → P s).
  { induction n as [|n IH]; intros s Hs.
    - destruct s; [done|simpl in Hs; lia].
    - destruct s as [|a [|b [|c [|d [|e rest]]]]]; auto.
      apply H5, IH. simpl in Hs. lia. }
  intros s. by apply (H (String.length s)).
Qed.

(** Without padding the encoder writes [EncodedLen] characters. *)
Lemma EncodeToString_length (src : string) :
  String.length (base32.EncodeToString None src) = base32.EncodedLen (String.length src).
Proof.
  induction src as [|a|a b|a b c|a b c d|a b c d e rest IH] using string_ind5;
    try reflexivity.
  change (base32.EncodeToString None
            (String a (String b (String c (String d (String e rest))))))
    with (base32.chars 8 (base32.quantum (byte_val a) (byte_val b) (byte_val c)
                            (byte_val d) (byte_val e))
          ++ base32.EncodeToString None rest)%string.
  rewrite string_length_app, IH.
  change (String.length (String a (String b (String c (String d (String e rest))))))
    with (1 * 5 + String.length rest)%nat.
  unfold base32.EncodedLen.
  rewrite Nat.div_add_l by lia.
  rewrite (Nat.add_comm (1 * 5)), Nat.Div0.mod_add.
  change (String.length (base32.chars 8 _)) with 8%nat. lia.
Qed.

Example EncodeToString_rfc4648 :
  base32.EncodeToString (Some "="%char) "f" = "MY======"%string ∧
  base32.EncodeToString (Some "="%char) "fo" = "MZXQ===="%string ∧
  base32.EncodeToString (Some "="%char) "foo" = "MZXW6==="%string ∧
  base32.EncodeToString (Some "="%char) "foob" = "MZXW6YQ="%string ∧
  base32.EncodeToString (Some "="%char) "fooba" = "MZXW6YTB"%string ∧
  base32.EncodeToString (Some "="%char) "foobar" = "MZXW6YTBOI======"%string ∧
  base32.EncodeToString None "foobar" = "MZXW6YTBOI"%string.
Proof. by vm_compute. Qed.

Example Sum256_vectors :
  nth 0 sha256.K 0 = 0x428a2f98 ∧ nth 63 sha256.K 0 = 0xc67178f2 ∧
  sha256.h0 sha256.init = 0x6a09e667 ∧ sha256.h7 sha256.init = 0x5be0cd19 ∧
  hex (sha256.Sum256 "") =
    "e3b0c44298fc1c149afbf4c8996fb92427ae41e4649b934ca495991b7852b855"%string ∧
  hex (sha256.Sum256 "abc") =
    "ba7816bf8f01cfea414140de5dae2223b00361a396177a9cb410ff61f20015ad"%string ∧
  hex (sha256.Sum256 "Y3QMGX3PJ3WLRL2YRTQGQ6KRHU") =
    "b62762d88aec7a8ff1aec0f275ac0f1472730afc5917e8698d31c5333ad0c5eb"%string.
Proof. by vm_compute. Qed.

Lemma Read_length (rnd : rand.source) (n : nat) :
  String.length (fst (rand.Read rnd n)) = n.
Proof.
  assert (H : ∀ l : list ascii, String.length (string_of_list_ascii l) = length l).
  { induction l as [|x l IH]; simpl; [done|]. by rewrite IH. }
  unfold rand.Read. destruct (rand.failure rnd); simpl; rewrite H.
  - apply repeat_length.
  - by rewrite length_map, length_seq.
Qed.

Lemma Sum256_length (data : string) : String.length (sha256.Sum256 data) = 32%nat.
Proof. reflexivity. Qed.

Lemma generateToken_inv now rnd userID ttl scope tok err :
  generateToken now rnd userID ttl scope = (Some tok, err) →
  rand.failure rnd = None ∧ err = None ∧
  tok = mkToken (sha256.Sum256 (base32.EncodeToString None (fst (rand.Read rnd 16))))
                (base32.EncodeToString None (fst (rand.Read rnd 16)))
                userID (now + ttl) scope.
Proof.
  unfold generateToken, rand.Read.
  destruct (rand.failure rnd); [discriminate|]. cbn -[sha256.Sum256 base32.EncodeToString].
  intros [= <- <-]. done.
Qed.

Lemma ValidateTokenPlaintext_26 (v : validator.Validator) (p : string) :
  String.length p = 26%nat → ValidateTokenPlaintext v p = v.
Proof.
  intros H. unfold ValidateTokenPlaintext. rewrite H.
  destruct p; [discriminate|]. reflexivity.
Qed.

(** C9. Whenever the random source delivers, [generateToken] produces a
    token; and every token it produces has a plaintext of exactly 26
    characters (the unpadded base-32 text of the 16 random bytes) and a hash
    of 32 bytes equal to SHA-256 of that plaintext, so that
    [ValidateTokenPlaintext] records no error for it: the validator is left
    as it was, and a fresh validator stays valid. *)
Theorem generateToken_plaintext_valid
    (now : Time) (rnd : rand.source) (userID : Z) (ttl : Duration) (scope : string) :
  (rand.failure rnd = None →
     ∃ tok, generateToken now rnd userID ttl scope = (Some tok, None)) ∧
  (∀ tok err, generateToken now rnd userID ttl scope = (Some tok, err) →
     String.length (fst (rand.Read rnd 16)) = 16%nat ∧
     PlainText tok = base32.EncodeToString None (fst (rand.Read rnd 16)) ∧
     String.length (PlainText tok) = 26%nat ∧
     Hash tok = sha256.Sum256 (PlainText tok) ∧
     String.length (Hash tok) = 32%nat ∧
     (∀ v, ValidateTokenPlaintext v (PlainText tok) = v) ∧
     validator.Valid (ValidateTokenPlaintext validator.New (PlainText tok)) = true).
Proof.
  assert (H26 : String.length (base32.EncodeToString None (fst (rand.Read rnd 16))) = 26%nat).
  { by rewrite EncodeToString_length, Read_length. }
  split.
  - intros Hf. unfold generateToken, rand.Read. rewrite Hf. eauto.
  - intros tok err (Hf & -> & ->)%generateToken_inv.
    cbn [PlainText Hash]. split_and!; try done.
    + apply Read_length.
    + intros v. by apply ValidateTokenPlaintext_26.
    + by rewrite ValidateTokenPlaintext_26.
Qed.

(** C6. When the random source delivers and the store accepts the insert
    (no fault on the call, no token with the same hash yet), [New] returns a
    token and no error; the plaintext is the unpadded base-32 text of the
    16 random bytes, the hash is SHA-256 of the plaintext (32 bytes, a
    function of the plaintext alone), the expiry is [now + ttl], user and scope
    are the arguments, and the store gains exactly the row
    [{hash, userID, expiry, scope}].  When the random source fails, [New]
    returns that error, no token, and the store as it was. *)
Theorem New_issues_token
    (db : store.Database) (now : Time) (rnd : rand.source)
    (userID : Z) (ttl : Duration) (scope : string) :
  let randomBytes := fst (rand.Read rnd 16) in
  let plaintext := base32.EncodeToString None randomBytes in
  let hash := sha256.Sum256 plaintext in
  (rand.failure rnd = None → store.tokens db !! hash = None →
     String.length randomBytes = 16%nat ∧
     String.length hash = 32%nat ∧
     TokenModel.New db None now rnd userID ttl scope =
       (store.mkDatabase (store.movies db) (store.movies_id_seq db)
          (<[hash := store.mkTokenRow userID (now + ttl) scope]> (store.tokens db)),
        Some (mkToken hash plaintext userID (now + ttl) scope),
        None)) ∧
  (∀ e, rand.failure rnd = Some e →
     TokenModel.New db None now rnd userID ttl scope = (db, None, Some e)).
Proof.
  intros randomBytes plaintext hash. split.
  - intros Hf Hfresh. split; [apply Read_length|]. split; [apply Sum256_length|].
    unfold TokenModel.New, generateToken.
    fold randomBytes. destruct (rand.Read rnd 16) as [bs err] eqn:E.
    assert (err = None) as ->.
    { unfold rand.Read in E. rewrite Hf in E. by inversion E. }
    subst randomBytes. cbn [fst] in *. fold plaintext. fold hash.
    cbn [UserID Expiry Scope].
    unfold TokenModel.Insert, store.send, store.insert_token. cbn [Hash UserID Expiry Scope].
    by rewrite Hfresh.
  - intros e Hf. unfold TokenModel.New, generateToken, rand.Read. by rewrite Hf.
Qed.

Lemma generateToken_plaintext_valid_witness :
  ∃ tok, generateToken 1000 sample_source 7 3600 ScopeActivation = (Some tok, None).
Proof.
  exact (proj1 (generateToken_plaintext_valid 1000 sample_source 7 3600 ScopeActivation)
           eq_refl).
Defined.

Lemma New_issues_token_witness :
  fst (TokenModel.New store.empty None 1000 sample_source 7 3600 ScopeActivation)
  = (store.mkDatabase ∅ 1
       {[ sha256.Sum256 "AAAQEAYEAUDAOCAJBIFQYDIOB4" :=
            store.mkTokenRow 7 4600 ScopeActivation ]},
     Some (mkToken (sha256.Sum256 "AAAQEAYEAUDAOCAJBIFQYDIOB4")
             "AAAQEAYEAUDAOCAJBIFQYDIOB4" 7 4600 ScopeActivation)).
Proof.
  pose proof (proj1 (New_issues_token store.empty 1000 sample_source 7 3600 ScopeActivation)
                eq_refl (lookup_empty _)) as (_ & _ & H).
  rewrite H. reflexivity.
Defined.

(* --------------------------------------------------------------------- *)
(** ** Movies: update under optimistic locking *)

Section UpdateFacts.
Import store MovieModel.
Implicit Types (db : Database) (movie : Movie) (r : movie_row).

Lemma Update_accepted db movie r :
  movies db !! ID movie = Some r → r_version r = Version movie →
  r_version r + 1 < 2 ^ 31 →
  Update db None movie =
    (with_movies db (<[ID movie := updated_row r movie]> (movies db)),
     bumped movie (Version movie + 1), None).
Proof.
  intros Hr Hv Hlt. unfold Update, send, update_movie. rewrite Hr.
  destruct (Z.eqb_spec (r_version r) (Version movie)); [|done].
  destruct (Z.ltb_spec (r_version r + 1) (2 ^ 31)); [|lia].
  cbn. unfold updated_row, bumped. by rewrite Hv.
Qed.

Lemma Update_conflict db movie :
  (∀ r, movies db !! ID movie = Some r → r_version r ≠ Version movie) →
  Update db None movie = (db, movie, Some ErrEditConflict).
Proof.
  intros H. unfold Update, send, update_movie.
  destruct (movies db !! ID movie) as [r|] eqn:Hr; [|done].
  destruct (Z.eqb_spec (r_version r) (Version movie)) as [E|_]; [|done].
  by destruct (H r eq_refl).
Qed.

Lemma Update_success_inv db fault movie db' movie' :
  Update db fault movie = (db', movie', None) →
  fault = None ∧
  ∃ r, movies db !! ID movie = Some r ∧ r_version r = Version movie ∧
       db' = with_movies db (<[ID movie := updated_row r movie]> (movies db)) ∧
       movie' = bumped movie (Version movie + 1).
Proof.
  unfold Update, send. destruct fault as [[e|e]|].
  1,2: cbn; case_match; discriminate.
  unfold update_movie.
  destruct (movies db !! ID movie) as [r|] eqn:Hr; [|discriminate].
  destruct (Z.eqb_spec (r_version r) (Version movie)) as [E|_]; [|by cbn].
  destruct (Z.ltb_spec (r_version r + 1) (2 ^ 31)); [|by cbn].
  cbn. intros [= <- <-]. split; [done|]. exists r.
  split_and!; [done..|]. unfold bumped. by rewrite E.
Qed.



End UpdateFacts.




(* --------------------------------------------------------------------- *)
(** ** Movies: delete *)

Lemma Delete_below_one (db : store.Database) (fault : option store.fault) (id : Z) :
  id < 1 → MovieModel.Delete db fault id = (db, Some ErrRecordNotFound).
Proof.
  intros H. unfold MovieModel.Delete. by destruct (Z.ltb_spec id 1); [|lia].
Qed.

Lemma Delete_present (db : store.Database) (id : Z) (r : store.movie_row) :
  1 ≤ id → store.movies db !! id = Some r →
  MovieModel.Delete db None id =
    (store.with_movies db (delete id (store.movies db)), None).
Proof.
  intros H Hr. unfold MovieModel.Delete, store.send, store.delete_movie.
  destruct (Z.ltb_spec id 1); [lia|]. by rewrite Hr.
Qed.

Lemma Delete_absent (db : store.Database) (id : Z) :
  1 ≤ id → store.movies db !! id = None → MovieModel.Delete db None id = (db, None).
Proof.
  intros H Hr. unfold MovieModel.Delete, store.send, store.delete_movie.
  destruct (Z.ltb_spec id 1); [lia|]. by rewrite Hr.
Qed.

(** C3. What the code does where [NotFound] is specified.  Deleting an
    id of at least 1 that has no row returns no error ([nil]) and leaves the
    store as it was: so does [Delete(5)] on the empty store, and so does the
    second of two deletes of the same id.  The test on zero affected rows is
    only reached when [RowsAffected] itself reports an error, which the
    driver never does.  The other parts hold: an id below 1 fails with
    [ErrRecordNotFound], and deleting an existing row removes it and returns
    no error. *)
Theorem Delete_absent_id_returns_nil :
  MovieModel.Delete store.empty None 5 = (store.empty, None) ∧
  (∀ db id, 1 ≤ id → store.movies db !! id = None →
     MovieModel.Delete db None id = (db, None)) ∧
  (∀ db id r, 1 ≤ id → store.movies db !! id = Some r →
     ∃ db1, MovieModel.Delete db None id = (db1, None) ∧
            store.movies db1 !! id = None ∧
            (∀ k, k ≠ id → store.movies db1 !! k = store.movies db !! k) ∧
            MovieModel.Delete db1 None id = (db1, None)) ∧
  (∀ db fault id, id < 1 →
     MovieModel.Delete db fault id = (db, Some ErrRecordNotFound)).
Proof.
  split_and!.
  - reflexivity.
  - apply Delete_absent.
  - intros db id r Hid Hr. eexists. split; [by eapply Delete_present|].
    split_and!.
    + cbn. apply lookup_delete_eq.
    + intros k Hk. cbn. by apply lookup_delete_ne.
    + apply Delete_absent; [done|]. cbn. apply lookup_delete_eq.
  - apply Delete_below_one.
Qed.

(* --------------------------------------------------------------------- *)
(** ** Movies: insert and get *)

Lemma store_ok_empty : store_ok store.empty.
Proof. split; [done|]. intros id r. cbn. by rewrite lookup_empty. Qed.

Lemma store_ok_fresh (db : store.Database) :
  store_ok db → store.movies db !! store.movies_id_seq db = None.
Proof.
  intros [_ H]. destruct (store.movies db !! store.movies_id_seq db) eqn:E; [|done].
  apply H in E. lia.
Qed.

Lemma Insert_accepted (db : store.Database) (now : Time) (movie : Movie) :
  store_ok db →
  MovieModel.Insert db None now movie =
    (store.mkDatabase
       (<[store.movies_id_seq db :=
            store.mkMovieRow now (Title movie) (Year movie) (MovieRuntime movie)
              (Genres movie) 1]> (store.movies db))
       (store.movies_id_seq db + 1) (store.tokens db),
     mkMovie (store.movies_id_seq db) now (Title movie) (Year movie)
       (MovieRuntime movie) (Genres movie) 1,
     None).
Proof.
  intros Hok. unfold MovieModel.Insert, store.send, store.insert_movie.
  by rewrite (store_ok_fresh db Hok).
Qed.

Lemma Get_below_one (db : store.Database) (fault : option store.fault) (id : Z) :
  id < 1 → MovieModel.Get db fault id = (None, Some ErrRecordNotFound).
Proof.
  intros H. unfold MovieModel.Get. by destruct (Z.ltb_spec id 1); [|lia].
Qed.

Lemma Get_no_row (db : store.Database) (id : Z) :
  store.movies db !! id = None →
  MovieModel.Get db None id = (None, Some ErrRecordNotFound).
Proof.
  intros H. unfold MovieModel.Get, store.send, store.select_movie.
  destruct (id <? 1); [done|]. by rewrite H.
Qed.

Lemma Get_row (db : store.Database) (id : Z) (r : store.movie_row) :
  1 ≤ id → store.movies db !! id = Some r →
  MovieModel.Get db None id =
    (Some (mkMovie id (store.r_created_at r) (store.r_title r) (store.r_year r)
             (store.r_runtime r) (store.r_genres r) (store.r_version r)), None).
Proof.
  intros Hid H. unfold MovieModel.Get, store.send, store.select_movie.
  destruct (Z.ltb_spec id 1); [lia|]. by rewrite H.
Qed.

(** The store that a writing operation leaves: the one its statement
    leaves, unless the request was lost. *)
Lemma Insert_store (db : store.Database) (fault : option store.fault) (now : Time)
    (movie : Movie) :
  (MovieModel.Insert db fault now movie).1.1 =
    match fault with
    | Some (store.lost_request _) => db
    | _ => (store.insert_movie now (Title movie) (Year movie) (MovieRuntime movie)
              (Genres movie) db).1
    end.
Proof.
  unfold MovieModel.Insert, store.send. destruct fault as [[e|e]|]; [done..|].
  destruct (store.insert_movie _ _ _ _ _ db) as [db' rows]. cbn.
  by repeat case_match.
Qed.

Lemma Update_store (db : store.Database) (fault : option store.fault) (movie : Movie) :
  (MovieModel.Update db fault movie).1.1 =
    match fault with
    | Some (store.lost_request _) => db
    | _ => (store.update_movie (Title movie) (Year movie) (MovieRuntime movie)
              (Genres movie) (ID movie) (Version movie) db).1
    end.
Proof.
  unfold MovieModel.Update, store.send. destruct fault as [[e|e]|].
  1,2: cbn; by case_match.
  destruct (store.update_movie _ _ _ _ _ _ db) as [db' rows]. cbn.
  by repeat case_match.
Qed.

Lemma Delete_store (db : store.Database) (fault : option store.fault) (id : Z) :
  (MovieModel.Delete db fault id).1 =
    if id <? 1 then db
    else match fault with
         | Some (store.lost_request _) => db
         | _ => (store.delete_movie id db).1
         end.
Proof.
  unfold MovieModel.Delete, store.send. destruct (id <? 1); [done|].
  destruct fault as [[e|e]|]; [done..|].
  destruct (store.delete_movie id db) as [db' rows]. cbn.
  by repeat case_match.
Qed.

(** The operations keep the store in the states described by [store_ok],
    whether or not a fault strikes. *)
Lemma store_ok_preserved (db : store.Database) (fault : option store.fault) :
  store_ok db →
  (∀ now movie, store_ok (MovieModel.Insert db fault now movie).1.1) ∧
  (∀ movie, store_ok (MovieModel.Update db fault movie).1.1) ∧
  (∀ id, store_ok (MovieModel.Delete db fault id).1).
Proof.
  intros [Hseq Hkeys]. split_and!.
  - intros now movie. rewrite Insert_store.
    destruct fault as [[e|e]|]; [by split|..].
    all: unfold store.insert_movie.
    all: destruct (store.movies db !! store.movies_id_seq db) eqn:E; cbn.
    all: split; cbn; [lia|]; intros id r.
    1,3: intros Hr; apply Hkeys in Hr; lia.
    all: rewrite lookup_insert; case_decide; [intros _; lia|].
    all: intros Hr; apply Hkeys in Hr; lia.
  - intros movie. rewrite Update_store.
    destruct fault as [[e|e]|]; [by split|..].
    all: unfold store.update_movie.
    all: destruct (store.movies db !! ID movie) eqn:E; [|by split].
    all: repeat case_match; try by split.
    all: split; cbn; [lia|]; intros id r;
      rewrite lookup_insert; case_decide; [subst; intros _; by eapply Hkeys|apply Hkeys].
  - intros id. rewrite Delete_store.
    destruct (id <? 1); [by split|]. destruct fault as [[e|e]|]; [by split|..].
    all: unfold store.delete_movie.
    all: destruct (store.movies db !! id) eqn:E; [|by split]; cbn.
    all: split; cbn; [lia|]; intros k r; rewrite lookup_delete.
    all: case_decide; [done|apply Hkeys].
Qed.

(** C7. On a store whose sequence is ahead of its keys, [Insert] succeeds and
    returns the record with the id drawn from the sequence (at least 1), the
    creation time of the store and version 1; a [Get] of that id on the
    resulting store returns this same record, so its version is 1 and its id
    is at least 1.  [Get] fails with [ErrRecordNotFound] for every id below 1
    and for every id that has no row. *)
Theorem Insert_then_Get (db : store.Database) (now : Time) (movie : Movie) :
  store_ok db →
  ∃ db' movie',
    MovieModel.Insert db None now movie = (db', movie', None) ∧
    ID movie' = store.movies_id_seq db ∧ 1 ≤ ID movie' ∧
    CreatedAt movie' = now ∧ Version movie' = 1 ∧
    Title movie' = Title movie ∧ Year movie' = Year movie ∧
    MovieRuntime movie' = MovieRuntime movie ∧ Genres movie' = Genres movie ∧
    MovieModel.Get db' None (ID movie') = (Some movie', None) ∧
    store_ok db' ∧
    (∀ d fault id, id < 1 →
       MovieModel.Get d fault id = (None, Some ErrRecordNotFound)) ∧
    (∀ d id, store.movies d !! id = None →
       MovieModel.Get d None id = (None, Some ErrRecordNotFound)).
Proof.
  intros Hok. pose proof Hok as [Hseq _].
  eexists _, _. split; [by apply Insert_accepted|]. cbn.
  split_and!; try done.
  - erewrite Get_row; [|lia|cbn; apply lookup_insert_eq]. done.
  - pose proof (proj1 (store_ok_preserved db None Hok) now movie) as H.
    by rewrite Insert_accepted in H.
  - apply Get_below_one.
  - apply Get_no_row.
Qed.

Lemma Insert_then_Get_witness :
  ∃ db' movie',
    MovieModel.Insert store.empty None 1000 inception = (db', movie', None) ∧
    ID movie' = 1 ∧ Version movie' = 1 ∧
    MovieModel.Get db' None (ID movie') = (Some movie', None).
Proof.
  destruct (Insert_then_Get store.empty 1000 inception store_ok_empty)
    as (db' & movie' & H1 & H2 & _ & _ & H3 & _ & _ & _ & _ & H4 & _).
  exists db', movie'. split_and!; done.
Defined.

(* --------------------------------------------------------------------- *)
(** ** Movies: the listing *)

Section Ordering.
Context {A : Type} (le : A → A → bool).
Hypothesis le_total : ∀ x y, le x y = true ∨ le y x = true.

Local Abbreviation R := (holds le).

Lemma insert_row_perm (x : A) (l : list A) : store.insert_row le x l ≡ₚ x :: l.
Proof.
  induction l as [|y l IH]; [done|]. cbn. destruct (le x y); [done|].
  rewrite IH. apply Permutation_swap.
Qed.

Lemma order_by_perm (l : list A) : store.order_by le l ≡ₚ l.
Proof.
  induction l as [|x l IH]; [done|]. cbn.
  rewrite insert_row_perm. by constructor.
Qed.

Lemma insert_row_HdRel (a x : A) (l : list A) :
  R a x → HdRel R a l → HdRel R a (store.insert_row le x l).
Proof.
  intros Hax Hal. destruct l as [|y l]; cbn; [by constructor|].
  destruct (le x y); constructor; [done|]. by inversion Hal.
Qed.

Lemma insert_row_sorted (x : A) (l : list A) :
  Sorted R l → Sorted R (store.insert_row le x l).
Proof.
  induction 1 as [|y l Hs IH Hhd]; cbn; [by repeat constructor|].
  destruct (le x y) eqn:E.
  - constructor; [by constructor|]. by constructor.
  - constructor; [done|]. apply insert_row_HdRel; [|done].
    unfold holds. destruct (le_total x y) as [H|H]; [congruence|done].
Qed.

Lemma order_by_sorted (l : list A) : Sorted R (store.order_by le l).
Proof.
  induction l as [|x l IH]; cbn; [constructor|]. by apply insert_row_sorted.
Qed.

Lemma Sorted_drop (n : nat) (l : list A) : Sorted R l → Sorted R (drop n l).
Proof.
  revert l. induction n as [|n IH]; intros l Hl; [done|].
  destruct l as [|x l]; [done|]. cbn. apply IH. by inversion Hl.
Qed.

Lemma Sorted_take (n : nat) (l : list A) : Sorted R l → Sorted R (take n l).
Proof.
  revert l. induction n as [|n IH]; intros l Hl; [constructor|].
  destruct l as [|x l]; [constructor|]. cbn.
  inversion Hl as [|? ? Hs Hhd]; subst. constructor; [by apply IH|].
  destruct l as [|y l]; [destruct n; constructor|]. destruct n; cbn; constructor.
  by inversion Hhd.
Qed.

End Ordering.

Lemma array_le_total (pg : store.engine) (a b : list string) :
  store.array_le pg a b = true ∨ store.array_le pg b a = true.
Proof.
  revert b. induction a as [|x a IH]; intros [|y b]; cbn; auto.
  destruct (store.collate_total pg x y) as [H|H]; rewrite H.
  - destruct (store.collate_le pg y x); auto.
  - destruct (store.collate_le pg x y); auto.
Qed.

Lemma value_le_total (pg : store.engine) (v w : option store.value) :
  store.value_le pg v w = true ∨ store.value_le pg w v = true.
Proof.
  destruct v as [[a|a|[a|]]|], w as [[b|b|[b|]]|]; cbn; auto.
  - destruct (Z.leb_spec a b), (Z.leb_spec b a); auto. lia.
  - apply store.collate_total.
  - apply array_le_total.
Qed.

Lemma row_le_total (pg : store.engine) (col : string) (desc : bool)
    (x y : Z * store.movie_row) :
  store.row_le pg col desc x y = true ∨ store.row_le pg col desc y x = true.
Proof.
  unfold store.row_le. cbv zeta.
  set (kx := store.column col x.1 x.2). set (ky := store.column col y.1 y.2).
  destruct (value_le_total pg kx ky) as [H|H]; rewrite H;
    destruct (store.value_le pg _ _) eqn:E in |- *; cbn;
    rewrite ?H, ?E; cbn;
    try (destruct (Z.leb_spec x.1 y.1), (Z.leb_spec y.1 x.1); auto; lia);
    destruct desc; auto.
Qed.

Lemma listing_where_unfiltered (pg : store.engine) (r : store.movie_row) :
  store.listing_where pg "" (Some []) r = store.TTrue.
Proof.
  unfold store.listing_where. cbn.
  destruct (store.tri_of _), (store.array_contains _ _); done.
Qed.

Lemma filter_keeps_all {A} (f : A → bool) (l : list A) :
  (∀ x, f x = true) → List.filter f l = l.
Proof.
  intros H. induction l as [|x l IH]; [done|]. cbn. by rewrite H, IH.
Qed.

Lemma listing_rows_unfiltered (pg : store.engine) (col : string) (desc : bool)
    (db : store.Database) :
  store.listing_rows pg "" (Some []) col desc db =
    store.order_by (store.row_le pg col desc) (map_to_list (store.movies db)).
Proof.
  unfold store.listing_rows. f_equal. apply filter_keeps_all.
  intros kv. by rewrite listing_where_unfiltered.
Qed.

Lemma scan_rows (count : Z) (page : list (Z * store.movie_row)) :
  ∀ (acc : list Movie) (total : Z),
    fold_left MovieModel.scan_row (List.map (fun kv => (count, kv.1, kv.2)) page) (acc, total)
    = (acc ++ List.map listed page, match page with [] => total | _ => count end).
Proof.
  induction page as [|kv page IH]; intros acc total; cbn.
  - by rewrite app_nil_r.
  - rewrite IH. rewrite <- app_assoc. cbn. f_equal. by destruct page.
Qed.

Lemma calculateMetadata_total (totalRecords pageSize page : Z) :
  Metadata.TotalRecords (calculateMetadata totalRecords pageSize page) = totalRecords.
Proof.
  unfold calculateMetadata. destruct (Z.eqb_spec totalRecords 0) as [->|]; done.
Qed.

Lemma sortDirection_cases (f : Filters) :
  sortDirection f = "ASC"%string ∨ sortDirection f = "DESC"%string.
Proof. unfold sortDirection. destruct (strings.HasPrefix _ _); auto. Qed.

(** C5 as stated fails: with one movie in the store and a page past the
    end, the listing matches that movie, yet the returned page is empty and
    [totalRecords] is 0, not 1. *)
Lemma GetAll_total_of_empty_page :
  store.listing_rows byte_order "" (Some []) "id" false one_movie = [(1, inception_row)] ∧
  size (store.movies one_movie) = 1%nat ∧
  MovieModel.GetAll byte_order one_movie None "" (Some [])
    (mkFilters 2 20 "id" ["id"; "-id"])
  = (Some [], Metadata.zero, None) ∧
  (Metadata.TotalRecords Metadata.zero =? 1) = false.
Proof. by vm_compute. Qed.

(** C5, amended.  For every store and every filter whose sort field names a
    column, with a page of at least 1 and a non-negative page size,
    [GetAll("", [], filter)] returns no error; every record matches (the
    rows before paging are a permutation of the table); they are ordered by
    the sort column in the filter's direction with ties broken by id
    ascending; the page returned is the window [limit], [offset] of these
    rows, in that order; and [totalRecords] is the number of all matching
    records whenever the page has at least one row, and 0 (with the
    all-zero metadata) when the page is empty. *)
Theorem GetAll_unfiltered (pg : store.engine) (db : store.Database) (filter : Filters) :
  store.is_column (sortColumn filter) = true →
  1 ≤ Page filter → 0 ≤ PageSize filter →
  let desc := String.eqb (sortDirection filter) "DESC" in
  let order := store.row_le pg (sortColumn filter) desc in
  let all := store.listing_rows pg "" (Some []) (sortColumn filter) desc db in
  let page := take (Z.to_nat (limit filter)) (drop (Z.to_nat (offset filter)) all) in
  all ≡ₚ map_to_list (store.movies db) ∧
  Sorted (holds order) all ∧
  Sorted (holds order) page ∧
  (∀ x y, order x y = true ∨ order y x = true) ∧
  (∀ x y, store.column (sortColumn filter) x.1 x.2 = store.column (sortColumn filter) y.1 y.2 →
          order x y = (x.1 <=? y.1)) ∧
  ∃ metadata,
    MovieModel.GetAll pg db None "" (Some []) filter
    = (Some (List.map listed page), metadata, None) ∧
    Metadata.TotalRecords metadata =
      match page with
      | [] => 0
      | _ => Z.of_nat (size (store.movies db))
      end ∧
    (page = [] → metadata = Metadata.zero).
Proof.
  intros Hcol Hpage Hsize desc order all page.
  assert (Hall : all = store.order_by order (map_to_list (store.movies db))).
  { apply listing_rows_unfiltered. }
  assert (Htotal : ∀ x y, order x y = true ∨ order y x = true).
  { intros x y. apply row_le_total. }
  assert (Hsorted : Sorted (holds order) all).
  { rewrite Hall. by apply order_by_sorted. }
  split_and!.
  - rewrite Hall. apply order_by_perm.
  - done.
  - by apply Sorted_take, Sorted_drop.
  - done.
  - intros x y Hk. unfold order, store.row_le. cbv zeta. rewrite Hk.
    destruct (value_le_total pg (store.column (sortColumn filter) y.1 y.2)
                (store.column (sortColumn filter) y.1 y.2)) as [H|H]; by rewrite H.
  - unfold MovieModel.GetAll, store.send, store.select_movies.
    rewrite Hcol. cbn [negb].
    assert (Hdir : String.eqb (sortDirection filter) "ASC"
                   || String.eqb (sortDirection filter) "DESC" = true).
    { destruct (sortDirection_cases filter) as [-> | ->]; done. }
    rewrite Hdir. cbn [negb].
    assert (Hoff : 0 ≤ offset filter) by (unfold offset; nia).
    unfold limit in *.
    destruct (Z.ltb_spec (PageSize filter) 0); [lia|].
    destruct (Z.ltb_spec (offset filter) 0); [lia|].
    cbv zeta. fold desc. fold all. fold page.
    rewrite scan_rows. cbn [app].
    eexists. split; [done|]. rewrite calculateMetadata_total.
    assert (Hlen : Z.of_nat (length all) = Z.of_nat (size (store.movies db))).
    { f_equal. rewrite Hall, order_by_perm. apply length_map_to_list. }
    split.
    + destruct page; [done|]. exact Hlen.
    + intros ->. reflexivity.
Qed.

Lemma GetAll_unfiltered_witness :
  ∃ metadata,
    MovieModel.GetAll byte_order one_movie None "" (Some []) (mkFilters 1 20 "-year" [])
    = (Some [listed (1, inception_row)], metadata, None) ∧
    Metadata.TotalRecords metadata = 1.
Proof.
  destruct (GetAll_unfiltered byte_order one_movie (mkFilters 1 20 "-year" [])
              eq_refl ltac:(done) ltac:(done))
    as (_ & _ & _ & _ & _ & metadata & H1 & H2 & _).
  exists metadata. split; [exact H1 | exact H2].
Defined.

(* ===================================================================== *)
(** * Further properties of the packages *)
(* ===================================================================== *)

(* --------------------------------------------------------------------- *)
(** ** Validator: uniqueness and accumulation *)

Lemma seen_dom (values : list string) : ∀ m : gmap string bool,
  dom (foldl (fun (m : gmap string bool) x => <[x := true]> m) m values)
  = dom m ∪ list_to_set values.
Proof.
  induction values as [|x l IH]; intros m; cbn.
  - set_solver.
  - rewrite IH, dom_insert_L. set_solver.
Qed.

Lemma size_list_to_set_le (l : list string) :
  (size (list_to_set l : gset string) ≤ length l)%nat ∧
  (size (list_to_set l : gset string) = length l ↔ NoDup l).
Proof.
  induction l as [|x l [IHle IHeq]]; cbn.
  - split; [by rewrite size_empty|]. split; [constructor|by rewrite size_empty].
  - destruct (decide (x ∈ l)) as [Hin|Hin].
    + assert (E : ({[x]} ∪ list_to_set l : gset string) = list_to_set l) by set_solver.
      rewrite E. split; [lia|]. split; [lia|].
      intros Hnd. apply NoDup_cons in Hnd as [? ?]. done.
    + rewrite size_union by set_solver. rewrite size_singleton.
      split; [lia|]. rewrite NoDup_cons. split.
      * intros H. split; [done|]. apply IHeq. lia.
      * intros [_ H]. apply IHeq in H. lia.
Qed.

Lemma Unique_spec (values : list string) :
  validator.Unique values = true ↔ NoDup values.
Proof.
  unfold validator.Unique. rewrite Nat.eqb_eq.
  rewrite <- size_dom, seen_dom, dom_empty_L, (left_id_L ∅ (∪)).
  destruct (size_list_to_set_le values) as [_ H]. rewrite <- H. split; lia.
Qed.

(** X1. [Unique] answers true exactly when no value occurs twice; in
    particular it is true of the empty list, and false as soon as a value is
    repeated anywhere in the list. *)
Theorem Unique_iff_NoDup (values : list string) :
  (validator.Unique values = true ↔ NoDup values) ∧
  (∀ x l1 l2 l3, values = l1 ++ x :: l2 ++ x :: l3 → validator.Unique values = false).
Proof.
  split; [apply Unique_spec|].
  intros x l1 l2 l3 ->. apply not_true_is_false. rewrite Unique_spec.
  rewrite NoDup_app. intros (_ & _ & Hnd). apply NoDup_cons in Hnd as [Hx _].
  apply Hx. set_solver.
Qed.

Lemma Check_keeps (v : validator.Validator) ok key message k m :
  validator.Errors v !! k = Some m →
  validator.Errors (validator.Check v ok key message) !! k = Some m.
Proof. intros H. by rewrite Check_lookup, H. Qed.

Lemma Check_size (v : validator.Validator) ok key message :
  (size (validator.Errors v) ≤ size (validator.Errors (validator.Check v ok key message))
   ≤ S (size (validator.Errors v)))%nat.
Proof.
  unfold validator.Check, validator.AddError. destruct ok; cbn; [lia|].
  destruct (validator.Errors v !! key) eqn:E; cbn; [lia|].
  rewrite map_size_insert_None by done. lia.
Qed.

(** X2. Accumulation only grows: through any sequence of [Check] calls every
    message already recorded stays as it is, the number of messages never
    decreases and grows by at most one per call, and a validator that is
    not valid never becomes valid again. *)
Theorem run_accumulates (v : validator.Validator) (cs : list validator.check) :
  validator.Errors v ⊆ validator.Errors (validator.run v cs) ∧
  (size (validator.Errors v) ≤ size (validator.Errors (validator.run v cs))
   ≤ size (validator.Errors v) + length cs)%nat ∧
  (validator.Valid v = false → validator.Valid (validator.run v cs) = false).
Proof.
  assert (Hsize : (size (validator.Errors v) ≤ size (validator.Errors (validator.run v cs))
                   ≤ size (validator.Errors v) + length cs)%nat).
  { revert v. induction cs as [|c cs IH]; intros v; cbn; [lia|].
    specialize (IH (validator.Check v (validator.c_ok c) (validator.c_key c)
                      (validator.c_message c))).
    pose proof (Check_size v (validator.c_ok c) (validator.c_key c) (validator.c_message c)).
    unfold validator.run in IH. lia. }
  split; [|split].
  - apply map_subseteq_spec. intros k m Hk. by rewrite run_lookup, Hk.
  - done.
  - unfold validator.Valid. rewrite !Nat.eqb_neq. lia.
Qed.

(* --------------------------------------------------------------------- *)
(** ** Validation of a movie and of a token plaintext *)

Lemma first_failure_none (cs : list validator.check) :
  (∀ k, validator.first_failure k cs = None) ↔
  Forall (fun c => validator.c_ok c = true) cs.
Proof.
  induction cs as [|c cs IH]; cbn; [by split|].
  rewrite Forall_cons, <- IH. split.
  - intros H. destruct (validator.c_ok c) eqn:E.
    + split; [done|]. intros k. specialize (H k). by cbn in H.
    + specialize (H (validator.c_key c)). cbn in H.
      by rewrite String.eqb_refl in H.
  - intros [-> H] k. cbn. apply H.
Qed.

Lemma run_New_valid (cs : list validator.check) :
  validator.Valid (validator.run validator.New cs) = true ↔
  Forall (fun c => validator.c_ok c = true) cs.
Proof.
  rewrite Valid_empty, <- first_failure_none. split.
  - intros H k. pose proof (run_lookup cs validator.New k) as E.
    rewrite H in E. cbn in E. by rewrite lookup_empty in E.
  - intros H. apply map_eq. intros k. rewrite run_lookup, H. cbn.
    by rewrite !lookup_empty.
Qed.

Lemma ValidateMovie_run (year_now : Z) (v : validator.Validator) (movie : Movie) :
  ValidateMovie year_now v movie = validator.run v (movie_checks year_now movie).
Proof. reflexivity. Qed.

(** X3. On a fresh validator [ValidateMovie] leaves no error exactly when the
    title is non-empty and at most 500 bytes long, the year lies between
    1888 and the current year (both included), the runtime is positive, and
    the genres are a non-nil slice of one to five values without
    duplicates. *)
Theorem ValidateMovie_valid_iff (year_now : Z) (movie : Movie) :
  validator.Valid (ValidateMovie year_now validator.New movie) = true ↔
  Title movie ≠ EmptyString ∧ (String.length (Title movie) ≤ 500)%nat ∧
  1888 ≤ Year movie ≤ int32 year_now ∧
  0 < MovieRuntime movie ∧
  ∃ genres, Genres movie = Some genres ∧ (1 ≤ length genres ≤ 5)%nat ∧ NoDup genres.
Proof.
  rewrite ValidateMovie_run, run_New_valid. unfold movie_checks.
  rewrite !Forall_cons, Forall_nil. cbn [validator.c_ok].
  rewrite !negb_true_iff, String.eqb_neq, !Z.eqb_neq, !Z.leb_le, Z.ltb_lt,
    !Nat.leb_le, Unique_spec.
  destruct (Genres movie) as [genres|]; cbn.
  - split.
    + intros (? & ? & ? & ? & ? & ? & ? & _ & ? & ? & ? & _).
      split_and!; try done. exists genres. split_and!; done.
    + intros (? & ? & [? ?] & ? & (g & [= <-] & [? ?] & ?)).
      split_and!; try done; lia.
  - split.
    + intros (_ & _ & _ & _ & _ & _ & _ & ? & _). done.
    + intros (_ & _ & _ & _ & (g & ? & _)). done.
Qed.

(** X4. [ValidateMovie] keeps every message the validator already holds and
    otherwise reports, for each of the four fields, the first rule the field
    breaks in the order of the checks: a missing title before an
    over-long one; a zero year as missing, before the lower and the upper
    bound; a zero runtime as missing, before a negative one; nil genres as
    missing, before too few, too many and duplicated values.  No other key is
    written. *)
Theorem ValidateMovie_messages
    (year_now : Z) (v : validator.Validator) (movie : Movie) (k : string) :
  validator.Errors (ValidateMovie year_now v movie) !! k =
    match validator.Errors v !! k with
    | Some m => Some m
    | None =>
        if String.eqb k "title" then
          if String.eqb (Title movie) "" then Some "must be provided"%string
          else if (500 <? String.length (Title movie))%nat
               then Some "must not be more than 500 bytes long"%string
               else None
        else if String.eqb k "year" then
          if Year movie =? 0 then Some "must be provided"%string
          else if Year movie <? 1888 then Some "must be greater than 1888"%string
          else if int32 year_now <? Year movie then Some "must not be in the future"%string
          else None
        else if String.eqb k "runtime" then
          if MovieRuntime movie =? 0 then Some "must be provided"%string
          else if MovieRuntime movie <? 0 then Some "must be a positive integer"%string
          else None
        else if String.eqb k "genres" then
          match Genres movie with
          | None => Some "must be provided"%string
          | Some [] => Some "must contain at least 1 genre"%string
          | Some l =>
              if (5 <? length l)%nat then Some "must not contain more than 5 genres"%string
              else if decide (NoDup l) then None
              else Some "must not contain duplicate values"%string
          end
        else None
    end.
Proof.
  rewrite ValidateMovie_run, run_lookup.
  destruct (validator.Errors v !! k); [done|].
  unfold movie_checks. cbn [validator.first_failure validator.c_ok validator.c_key
                            validator.c_message].
  rewrite !(String.eqb_sym _ k).
  destruct (String.eqb_spec k "title") as [->|_].
  { cbn [String.eqb Ascii.eqb Bool.eqb andb]. rewrite !andb_true_r, !andb_false_r.
    destruct (String.eqb (Title movie) ""); [done|]. cbn [negb].
    rewrite Nat.ltb_antisym. by destruct (Nat.leb _ _). }
  destruct (String.eqb_spec k "year") as [->|_].
  { cbn [String.eqb Ascii.eqb Bool.eqb andb]. rewrite !andb_true_r, !andb_false_r.
    destruct (Z.eqb_spec (Year movie) 0); [done|]. cbn [negb].
    rewrite !Z.ltb_antisym.
    destruct (1888 <=? Year movie); [|done]. cbn [negb].
    by destruct (Year movie <=? int32 year_now). }
  destruct (String.eqb_spec k "runtime") as [->|_].
  { cbn [String.eqb Ascii.eqb Bool.eqb andb]. rewrite !andb_true_r, !andb_false_r.
    destruct (Z.eqb_spec (MovieRuntime movie) 0) as [E|E]; [done|]. cbn [negb].
    destruct (Z.ltb_spec 0 (MovieRuntime movie)), (Z.ltb_spec (MovieRuntime movie) 0);
      cbn; try done; lia. }
  destruct (String.eqb_spec k "genres") as [->|_].
  { cbn [String.eqb Ascii.eqb Bool.eqb andb]. rewrite !andb_true_r, !andb_false_r.
    destruct (Genres movie) as [[|g l]|]; [done| |done].
    cbn [is_nil_slice negb elems length Nat.leb].
    rewrite Nat.ltb_antisym.
    destruct (Nat.leb _ _); [|done]. cbn [negb].
    destruct (decide (NoDup (g :: l))) as [H|H].
    - apply Unique_spec in H. by rewrite H.
    - rewrite <- Unique_spec in H. apply not_true_is_false in H. by rewrite H. }
  by rewrite !andb_false_r.
Qed.

(** X5. [ValidateTokenPlaintext] keeps the messages already held and writes
    only the key "token": "must be provided" for the empty plaintext, "must
    be 26 bytes long" for any other plaintext whose length is not 26, and
    nothing for a plaintext of 26 bytes.  On a fresh validator the result is
    valid exactly when the plaintext has 26 bytes. *)
Theorem ValidateTokenPlaintext_messages
    (v : validator.Validator) (tokenPlaintext : string) :
  (∀ k, validator.Errors (ValidateTokenPlaintext v tokenPlaintext) !! k =
     match validator.Errors v !! k with
     | Some m => Some m
     | None =>
         if String.eqb k "token" then
           if String.eqb tokenPlaintext "" then Some "must be provided"%string
           else if Nat.eqb (String.length tokenPlaintext) 26 then None
           else Some "must be 26 bytes long"%string
         else None
     end) ∧
  (validator.Valid (ValidateTokenPlaintext validator.New tokenPlaintext) = true ↔
   String.length tokenPlaintext = 26%nat).
Proof.
  assert (Hrun : ∀ w, ValidateTokenPlaintext w tokenPlaintext =
            validator.run w
              [validator.mkCheck (negb (String.eqb tokenPlaintext "")) "token"
                 "must be provided";
               validator.mkCheck (Nat.eqb (String.length tokenPlaintext) 26) "token"
                 "must be 26 bytes long"]).
  { reflexivity. }
  split.
  - intros k. rewrite Hrun, run_lookup.
    destruct (validator.Errors v !! k); [done|].
    cbn [validator.first_failure validator.c_ok validator.c_key validator.c_message].
    rewrite !(String.eqb_sym _ k).
    destruct (String.eqb k "token"); [|by rewrite !andb_false_r].
    rewrite !andb_true_r.
    destruct (String.eqb tokenPlaintext ""); [done|]. cbn [negb].
    by destruct (Nat.eqb _ _).
  - rewrite Hrun, run_New_valid, !Forall_cons, Forall_nil. cbn [validator.c_ok].
    rewrite negb_true_iff, String.eqb_neq, Nat.eqb_eq. split.
    + by intros (_ & ? & _).
    + intros H. split_and!; try done. intros ->. discriminate H.
Qed.

(* --------------------------------------------------------------------- *)
(** ** Tokens: failed inserts and revocation *)

(** X6. [New] hands back the generated token even when storing it fails.
    When the random source delivers, [New] returns the token together with
    the error in each of these cases: a token with the same hash is already
    stored, or the request is lost on its way (the store is then as it was);
    the answer of the server is lost (the token is then stored all the same
    when its hash was free, every other token and the movies being as they
    were).  So the error does not tell the caller whether the token is in
    the store. *)
Theorem New_returns_token_with_error
    (db : store.Database) (now : Time) (rnd : rand.source)
    (userID : Z) (ttl : Duration) (scope : string) :
  rand.failure rnd = None →
  let plaintext := base32.EncodeToString None (fst (rand.Read rnd 16)) in
  let token := mkToken (sha256.Sum256 plaintext) plaintext userID (now + ttl) scope in
  (∀ e, TokenModel.New db (Some (store.lost_request e)) now rnd userID ttl scope
        = (db, Some token, Some e)) ∧
  (∀ e, ∃ db',
     TokenModel.New db (Some (store.lost_answer e)) now rnd userID ttl scope
     = (db', Some token, Some e) ∧
     store.movies db' = store.movies db ∧
     (∀ hash, hash ≠ Hash token → store.tokens db' !! hash = store.tokens db !! hash) ∧
     (store.tokens db !! Hash token = None →
        store.tokens db' !! Hash token = Some (store.mkTokenRow userID (now + ttl) scope)) ∧
     (∀ row, store.tokens db !! Hash token = Some row → db' = db)) ∧
  (∀ row, store.tokens db !! sha256.Sum256 plaintext = Some row →
     ∃ e, TokenModel.New db None now rnd userID ttl scope = (db, Some token, Some e)).
Proof.
  intros Hf plaintext token.
  assert (Hgen : generateToken now rnd userID ttl scope = (Some token, None)).
  { unfold generateToken. destruct (rand.Read rnd 16) as [bs err] eqn:E.
    assert (err = None) as ->.
    { unfold rand.Read in E. rewrite Hf in E. by inversion E. }
    subst token plaintext. by cbn. }
  split_and!.
  - intros e. unfold TokenModel.New. by rewrite Hgen.
  - intros e. unfold TokenModel.New. rewrite Hgen.
    unfold TokenModel.Insert, store.send, store.insert_token.
    cbn [Hash UserID Expiry Scope token].
    destruct (store.tokens db !! sha256.Sum256 plaintext) as [row|] eqn:Hrow.
    + exists db. cbn. split_and!; try done.
    + eexists. split; [reflexivity|]. cbn. split_and!; try done.
      * intros hash Hne. by rewrite lookup_insert_ne.
      * intros _. by rewrite lookup_insert_eq.
  - intros row Hrow. unfold TokenModel.New. rewrite Hgen.
    unfold TokenModel.Insert, store.send, store.insert_token.
    cbn [Hash token]. subst token. cbn [Hash]. rewrite Hrow. eauto.
Qed.

Lemma New_returns_token_with_error_witness :
  ∃ token db',
    TokenModel.New store.empty (Some (store.lost_answer (store.pq_error "timeout")))
      1000 sample_source 7 3600 ScopeActivation
    = (db', Some token, Some (store.pq_error "timeout")) ∧
    store.tokens db' !! Hash token = Some (store.mkTokenRow 7 (1000 + 3600) ScopeActivation).
Proof.
  destruct (proj1 (proj2 (New_returns_token_with_error store.empty 1000 sample_source 7 3600
                            ScopeActivation eq_refl)) (store.pq_error "timeout"))
    as (db' & Hnew & _ & _ & Hstored & _).
  eexists _, db'. split; [exact Hnew|]. by apply Hstored.
Defined.

Lemma list_to_map_filter_lookup {A} (keep : string * A → bool) (m : gmap string A)
    (k : string) :
  (list_to_map (List.filter keep (map_to_list m)) : gmap string A) !! k =
    match m !! k with
    | Some a => if keep (k, a) then Some a else None
    | None => None
    end.
Proof.
  assert (Hnd : NoDup (List.filter keep (map_to_list m)).*1).
  { pose proof (NoDup_fst_map_to_list m) as H.
    induction (map_to_list m) as [|[k' a'] l IH]; cbn; [constructor|].
    cbn in H. apply NoDup_cons in H as [Hk Hl].
    destruct (keep (k', a')); cbn; [|by apply IH].
    apply NoDup_cons. split; [|by apply IH].
    intros Hin. apply Hk. apply list_elem_of_fmap in Hin as ([k2 a2] & -> & Hin).
    apply list_elem_of_fmap. exists (k2, a2). split; [done|].
    apply list_elem_of_In in Hin. apply filter_In in Hin as [Hin _].
    by apply list_elem_of_In. }
  destruct (m !! k) as [a|] eqn:E.
  - destruct (keep (k, a)) eqn:Ek.
    + apply elem_of_list_to_map; [done|]. apply list_elem_of_In, filter_In.
      split; [|done]. by apply list_elem_of_In, elem_of_map_to_list.
    + apply not_elem_of_list_to_map. intros Hin.
      apply list_elem_of_fmap in Hin as ([k2 a2] & Hk & Hin). cbn in Hk. subst k2.
      apply list_elem_of_In, filter_In in Hin as [Hin Hkeep].
      apply list_elem_of_In, elem_of_map_to_list in Hin. congruence.
  - apply not_elem_of_list_to_map. intros Hin.
    apply list_elem_of_fmap in Hin as ([k2 a2] & Hk & Hin). cbn in Hk. subst k2.
    apply list_elem_of_In, filter_In in Hin as [Hin _].
    apply list_elem_of_In, elem_of_map_to_list in Hin. congruence.
Qed.

(** X7. [DeleteAllForUser] removes exactly the tokens of the given user and
    scope: such a token is no longer found by its hash, every other token
    (another user, or another scope of the same user) is found as before,
    and the movies are untouched.  When the call is struck by a fault the
    error of the fault is returned: nothing is removed when the request was
    lost, and the same tokens are removed when only the answer was lost. *)
Theorem DeleteAllForUser_removes_exactly
    (db : store.Database) (userID : Z) (scope : string) :
  (∃ db',
     TokenModel.DeleteAllForUser db None userID scope = (db', None) ∧
     store.movies db' = store.movies db ∧
     store.movies_id_seq db' = store.movies_id_seq db ∧
     (∀ hash,
        store.tokens db' !! hash =
          match store.tokens db !! hash with
          | Some row =>
              if (store.t_user_id row =? userID) && String.eqb (store.t_scope row) scope
              then None else Some row
          | None => None
          end) ∧
     (∀ e, TokenModel.DeleteAllForUser db (Some (store.lost_answer e)) userID scope
           = (db', Some e))) ∧
  (∀ e, TokenModel.DeleteAllForUser db (Some (store.lost_request e)) userID scope
        = (db, Some e)).
Proof.
  split; [|done].
  eexists. split; [reflexivity|]. cbn. split_and!; try done.
  intros hash. rewrite list_to_map_filter_lookup. cbn.
  destruct (store.tokens db !! hash) as [row|]; [|done].
  by destruct ((store.t_user_id row =? userID) && String.eqb (store.t_scope row) scope).
Qed.

(** X8. Re-issuing invalidates: a token issued by [New] is stored under its
    hash, and after [DeleteAllForUser] for its user and scope it is gone,
    while a token of the same user in another scope stays. *)
Theorem New_then_DeleteAllForUser
    (db : store.Database) (now : Time) (rnd : rand.source)
    (userID : Z) (ttl : Duration) (scope : string)
    (db1 : store.Database) (token : Token) :
  TokenModel.New db None now rnd userID ttl scope = (db1, Some token, None) →
  store.tokens db1 !! Hash token = Some (store.mkTokenRow userID (now + ttl) scope) ∧
  ∃ db2,
    TokenModel.DeleteAllForUser db1 None userID scope = (db2, None) ∧
    store.tokens db2 !! Hash token = None ∧
    ∀ hash row, store.tokens db1 !! hash = Some row →
      store.t_user_id row ≠ userID ∨ store.t_scope row ≠ scope →
      store.tokens db2 !! hash = Some row.
Proof.
  intros Hnew.
  assert (Hstored : store.tokens db1 !! Hash token
                    = Some (store.mkTokenRow userID (now + ttl) scope)).
  { unfold TokenModel.New in Hnew.
    destruct (generateToken now rnd userID ttl scope) as [[tok|] [e|]] eqn:Hgen;
      try discriminate.
    apply generateToken_inv in Hgen as (_ & _ & Htok).
    unfold TokenModel.Insert, store.send, store.insert_token in Hnew.
    destruct (store.tokens db !! Hash tok) eqn:E; [discriminate|].
    inversion Hnew; subst. cbn. apply lookup_insert_eq. }
  split; [done|].
  eexists. split; [reflexivity|]. cbn. split.
  - rewrite list_to_map_filter_lookup, Hstored. cbn.
    by rewrite Z.eqb_refl, String.eqb_refl.
  - intros hash row Hrow Hother. rewrite list_to_map_filter_lookup, Hrow. cbn.
    destruct Hother as [H|H].
    + apply Z.eqb_neq in H. by rewrite H.
    + apply String.eqb_neq in H. by rewrite H, andb_false_r.
Qed.

Lemma New_then_DeleteAllForUser_witness :
  ∃ db2,
    TokenModel.DeleteAllForUser
      (TokenModel.New store.empty None 1000 sample_source 7 3600 ScopeActivation).1.1
      None 7 ScopeActivation = (db2, None) ∧
    store.tokens db2 !! sha256.Sum256 "AAAQEAYEAUDAOCAJBIFQYDIOB4" = None.
Proof.
  destruct (New_then_DeleteAllForUser store.empty 1000 sample_source 7 3600 ScopeActivation
              _ _ eq_refl) as (_ & db2 & H1 & H2 & _).
  exists db2. split; [exact H1 | exact H2].
Defined.

(* --------------------------------------------------------------------- *)
(** ** Movies: failures, and operations one after the other *)




(** X11. Update, then read, then retry.  After an accepted [Update] a [Get]
    of the same id returns the title, year, runtime and genres that were
    sent, the version that [Update] returned, and the id and creation time
    the row had before.  A second [Update] that still carries the old
    version fails with [ErrEditConflict]; one that carries the returned
    record is accepted and stores the next version (as long as it fits the
    column). *)
Theorem Update_then_Get
    (db : store.Database) (movie : Movie) (db' : store.Database) (movie' : Movie) :
  1 ≤ ID movie →
  MovieModel.Update db None movie = (db', movie', None) →
  ∃ r,
    store.movies db !! ID movie = Some r ∧
    MovieModel.Get db' None (ID movie) =
      (Some (mkMovie (ID movie) (store.r_created_at r) (Title movie) (Year movie)
               (MovieRuntime movie) (Genres movie) (Version movie + 1)), None) ∧
    Version movie' = Version movie + 1 ∧
    MovieModel.Update db' None movie = (db', movie, Some ErrEditConflict) ∧
    (Version movie' + 1 < 2 ^ 31 →
       ∃ db2, MovieModel.Update db' None movie' = (db2, bumped movie' (Version movie + 2), None)).
Proof.
  intros Hid (_ & r & Hr & Hv & -> & ->)%Update_success_inv.
  exists r. split; [done|].
  assert (Hrow : store.movies
                   (store.with_movies db (<[ID movie := updated_row r movie]> (store.movies db)))
                 !! ID movie = Some (updated_row r movie)).
  { cbn. apply lookup_insert_eq. }
  split_and!.
  - rewrite (Get_row _ _ _ Hid Hrow). cbn. by rewrite Hv.
  - done.
  - apply Update_conflict. intros r'. rewrite Hrow. intros [= <-]. cbn. lia.
  - intros Hfit. eexists.
    rewrite (Update_accepted _ (bumped movie (Version movie + 1)) (updated_row r movie)).
    + unfold bumped. cbn. do 3 f_equal. lia.
    + exact Hrow.
    + cbn. lia.
    + cbn in *. lia.
Qed.

Lemma Update_then_Get_witness :
  ∃ db',
    MovieModel.Update one_movie None inception = (db', bumped inception 2, None) ∧
    MovieModel.Get db' None 1 = (Some (bumped inception 2), None) ∧
    MovieModel.Update db' None inception = (db', inception, Some ErrEditConflict).
Proof.
  eexists. split; [reflexivity|].
  destruct (Update_then_Get one_movie inception _ _ ltac:(done) eq_refl)
    as (r & Hr & Hget & _ & Hstale & _).
  split; [|exact Hstale].
  injection Hr as <-. exact Hget.
Defined.

(** X12. After an accepted [Delete] the record is gone for the other
    operations: [Get] of that id fails with [ErrRecordNotFound], [Update] of
    a record with that id fails with [ErrEditConflict] whatever version it
    carries, and every other id is read as before. *)
Theorem Delete_then_Get_and_Update
    (db : store.Database) (id : Z) (r : store.movie_row) :
  1 ≤ id → store.movies db !! id = Some r →
  ∃ db',
    MovieModel.Delete db None id = (db', None) ∧
    MovieModel.Get db' None id = (None, Some ErrRecordNotFound) ∧
    (∀ movie, ID movie = id →
       MovieModel.Update db' None movie = (db', movie, Some ErrEditConflict)) ∧
    (∀ k, k ≠ id → MovieModel.Get db' None k = MovieModel.Get db None k).
Proof.
  intros Hid Hr. eexists. split; [by eapply Delete_present|]. split_and!.
  - apply Get_no_row. cbn. apply lookup_delete_eq.
  - intros movie <-. apply Update_conflict. intros r'. cbn.
    by rewrite lookup_delete_eq.
  - intros k Hk. unfold MovieModel.Get, store.send, store.select_movie. cbn.
    rewrite lookup_delete_ne by congruence.
    destruct (k <? 1); [done|]. by destruct (store.movies db !! k).
Qed.

Lemma Delete_then_Get_and_Update_witness :
  ∃ db',
    MovieModel.Delete one_movie None 1 = (db', None) ∧
    MovieModel.Get db' None 1 = (None, Some ErrRecordNotFound).
Proof.
  destruct (Delete_then_Get_and_Update one_movie 1 inception_row ltac:(done) eq_refl)
    as (db' & H1 & H2 & _).
  exists db'. split; [exact H1 | exact H2].
Defined.

(* --------------------------------------------------------------------- *)
(** ** Movies: the listing with filters *)

Lemma scan_row_genres (rows : list (Z * Z * store.movie_row)) :
  ∀ (acc : list Movie) (total : Z),
    Forall (fun m => Genres m = None) acc →
    Forall (fun m => Genres m = None) (fold_left MovieModel.scan_row rows (acc, total)).1.
Proof.
  induction rows as [|[[count id] r] rows IH]; intros acc total Hacc; [done|].
  cbn [fold_left MovieModel.scan_row]. apply IH. cbn.
  apply Forall_app. split; [done|]. by repeat constructor.
Qed.

(** X13. The listing never returns genres: in every result of [GetAll] the
    [Genres] of every movie are nil, whatever the stored rows hold and
    whatever the filters are, because each row is scanned into a copy of the
    slice. *)
Theorem GetAll_genres_are_nil
    (pg : store.engine) (db : store.Database) (fault : option store.fault)
    (title : string) (genres : slice string) (filter : Filters)
    (movies : list Movie) (metadata : Metadata.t) (err : option error) :
  MovieModel.GetAll pg db fault title genres filter = (Some movies, metadata, err) →
  Forall (fun m => Genres m = None) movies.
Proof.
  intros H. unfold MovieModel.GetAll in H.
  destruct (store.send fault db _) as [db' [rows|e]]; [|discriminate].
  pose proof (scan_row_genres rows [] 0 (Forall_nil_2 _)) as Hg.
  destruct (fold_left MovieModel.scan_row rows ([], 0)) as [ms total].
  by injection H as <- _ _.
Qed.

Lemma GetAll_genres_are_nil_witness :
  ∃ m m',
    MovieModel.GetAll byte_order one_movie None "" (Some []) (mkFilters 1 20 "id" [])
    = (Some [m], calculateMetadata 1 20 1, None) ∧
    Genres m = None ∧
    MovieModel.Get one_movie None 1 = (Some m', None) ∧
    Genres m' = Some ["scifi"; "thriller"]%string.
Proof.
  pose proof (GetAll_genres_are_nil byte_order one_movie None "" (Some [])
                (mkFilters 1 20 "id" []) _ _ _ eq_refl) as H.
  apply Forall_cons in H as [H _].
  eexists _, _. split_and!; [reflexivity | exact H | reflexivity | reflexivity].
Defined.

Lemma NoDup_fst_filter {K A} (keep : K * A → bool) (l : list (K * A)) :
  NoDup l.*1 → NoDup (List.filter keep l).*1.
Proof.
  induction l as [|[k a] l IH]; cbn; [done|].
  intros [Hk Hl]%NoDup_cons.
  destruct (keep (k, a)); cbn; [|by apply IH].
  apply NoDup_cons. split; [|by apply IH].
  intros Hin. apply Hk. apply list_elem_of_fmap in Hin as ([k2 a2] & -> & Hin).
  apply list_elem_of_fmap. exists (k2, a2). split; [done|].
  apply list_elem_of_In in Hin. apply filter_In in Hin as [Hin _].
  by apply list_elem_of_In.
Qed.

(** What [GetAll] returns when the query is accepted. *)
Lemma GetAll_accepted (pg : store.engine) (db : store.Database)
    (title : string) (genres : slice string) (filter : Filters) :
  store.is_column (sortColumn filter) = true →
  1 ≤ Page filter → 0 ≤ PageSize filter →
  let all := store.listing_rows pg title genres (sortColumn filter)
               (String.eqb (sortDirection filter) "DESC") db in
  let page := take (Z.to_nat (limit filter)) (drop (Z.to_nat (offset filter)) all) in
  MovieModel.GetAll pg db None title genres filter =
    (Some (List.map listed page),
     calculateMetadata (match page with [] => 0 | _ => Z.of_nat (length all) end)
       (PageSize filter) (Page filter),
     None).
Proof.
  intros Hcol Hpage Hsize all page.
  unfold MovieModel.GetAll, store.send, store.select_movies.
  rewrite Hcol. cbn [negb].
  assert (Hdir : String.eqb (sortDirection filter) "ASC"
                 || String.eqb (sortDirection filter) "DESC" = true).
  { destruct (sortDirection_cases filter) as [-> | ->]; done. }
  rewrite Hdir. cbn [negb].
  assert (Hoff : 0 ≤ offset filter) by (unfold offset; nia).
  unfold limit in *.
  destruct (Z.ltb_spec (PageSize filter) 0); [lia|].
  destruct (Z.ltb_spec (offset filter) 0); [lia|].
  cbv zeta. fold all. fold page. by rewrite scan_rows.
Qed.

Lemma listing_where_iff (pg : store.engine) (title : string) (genres : slice string)
    (r : store.movie_row) :
  store.listing_where pg title genres r = store.TTrue ↔
  (title = EmptyString ∨ store.ts_match pg (store.r_title r) title = true) ∧
  ∃ g, genres = Some g ∧
       (g = [] ∨ ∃ rg, store.r_genres r = Some rg ∧ ∀ x, x ∈ g → x ∈ rg).
Proof.
  unfold store.listing_where.
  assert (Hand : ∀ a b, store.tri_and a b = store.TTrue ↔ a = store.TTrue ∧ b = store.TTrue).
  { intros [] []; cbn; naive_solver. }
  assert (Hor : ∀ x y, store.tri_or (store.tri_of x) (store.tri_of y) = store.TTrue
                       ↔ x = true ∨ y = true).
  { intros [] []; cbn; naive_solver. }
  rewrite Hand, Hor, String.eqb_eq.
  assert (Hg : store.tri_or (store.array_contains (store.r_genres r) genres)
                 (store.array_is_empty genres) = store.TTrue
               ↔ ∃ g, genres = Some g ∧
                   (g = [] ∨ ∃ rg, store.r_genres r = Some rg ∧ ∀ x, x ∈ g → x ∈ rg)).
  { destruct genres as [g|]; cbn.
    2:{ split; [by destruct (store.r_genres r)|]. by intros (g & ? & _). }
    destruct (store.r_genres r) as [rg|]; cbn.
    - destruct (forallb _ g) eqn:E.
      + split; [|by destruct g]. intros _. exists g. split; [done|]. right.
        exists rg. split; [done|]. intros x Hx.
        rewrite forallb_forall in E. apply list_elem_of_In in Hx.
        specialize (E x Hx). apply existsb_exists in E as (y & Hy & ->%String.eqb_eq).
        by apply list_elem_of_In.
      + destruct g as [|x0 g]; cbn; [done|]. split; [done|].
        intros (g' & [= <-] & [?|(rg' & [= <-] & Hsub)]); [done|].
        assert (forallb (fun x => existsb (String.eqb x) rg) (x0 :: g) = true); [|congruence].
        apply forallb_forall. intros x Hx. apply existsb_exists. exists x.
        split; [|apply String.eqb_refl]. apply list_elem_of_In, Hsub.
        by apply list_elem_of_In.
    - destruct g as [|x0 g]; cbn.
      + split; [|done]. intros _. exists []. split; [done|]. by left.
      + split; [done|]. intros (g' & [= <-] & [?|(rg' & ? & _)]); done. }
  rewrite Hg. split.
  - intros [[?|?] ?]; split; auto.
  - intros [[?|?] ?]; split; auto.
Qed.

(** X14. A nil genres slice is not the empty filter.  It reaches the store as
    [NULL], the genre condition is then unknown for every row, and the
    listing is empty with all-zero metadata, whatever the store holds and
    whatever the title is; the empty slice, by contrast, lets every row
    through the genre condition. *)
Theorem GetAll_nil_genres_matches_nothing
    (pg : store.engine) (db : store.Database) (title : string) (filter : Filters) :
  store.is_column (sortColumn filter) = true →
  1 ≤ Page filter → 0 ≤ PageSize filter →
  MovieModel.GetAll pg db None title None filter = (Some [], Metadata.zero, None) ∧
  (∀ r, store.listing_where pg title None r ≠ store.TTrue) ∧
  (∀ r, store.listing_where pg "" (Some []) r = store.TTrue).
Proof.
  intros Hcol Hpage Hsize.
  assert (Hno : ∀ r, store.listing_where pg title None r ≠ store.TTrue).
  { intros r. rewrite listing_where_iff. by intros (_ & g & ? & _). }
  split_and!; [|done|apply listing_where_unfiltered].
  rewrite GetAll_accepted by done. cbv zeta.
  assert (Hall : store.listing_rows pg title None (sortColumn filter)
                   (String.eqb (sortDirection filter) "DESC") db = []).
  { unfold store.listing_rows.
    assert (Hf : ∀ l : list (Z * store.movie_row),
              List.filter (fun kv => match store.listing_where pg title None kv.2 with
                                     | store.TTrue => true
                                     | _ => false
                                     end) l = []).
    { induction l as [|kv l IH]; [done|]. cbn.
      specialize (Hno kv.2). by destruct (store.listing_where pg title None kv.2). }
    by rewrite Hf. }
  rewrite Hall, drop_nil, take_nil. reflexivity.
Qed.

Lemma GetAll_nil_genres_matches_nothing_witness :
  MovieModel.GetAll byte_order one_movie None "" None (mkFilters 1 20 "id" [])
  = (Some [], Metadata.zero, None).
Proof.
  exact (proj1 (GetAll_nil_genres_matches_nothing byte_order one_movie ""
                  (mkFilters 1 20 "id" []) eq_refl ltac:(done) ltac:(done))).
Defined.

(** X15. The listing with filters.  For a filter whose sort field names a
    column, with a page of at least 1 and a non-negative page size, [GetAll]
    returns no error and a page that holds at most [PageSize] movies, no id
    twice, in the order of the sort column and direction with ties broken
    by id.  Every movie of the page is a stored row that passes both
    conditions: the title query is empty or matches the title, and the
    genres asked for are an empty slice or all among the genres of the row.
    When the page is not empty, [totalRecords] is the number of stored rows
    that pass both conditions, which is at least the length of the page. *)
Theorem GetAll_filtered
    (pg : store.engine) (db : store.Database)
    (title : string) (genres : slice string) (filter : Filters) :
  store.is_column (sortColumn filter) = true →
  1 ≤ Page filter → 0 ≤ PageSize filter →
  let order := store.row_le pg (sortColumn filter)
                 (String.eqb (sortDirection filter) "DESC") in
  let passes (r : store.movie_row) :=
    (title = EmptyString ∨ store.ts_match pg (store.r_title r) title = true) ∧
    ∃ g, genres = Some g ∧
         (g = [] ∨ ∃ rg, store.r_genres r = Some rg ∧ ∀ x, x ∈ g → x ∈ rg) in
  ∃ (page matching : list (Z * store.movie_row)) (metadata : Metadata.t),
    MovieModel.GetAll pg db None title genres filter
    = (Some (List.map listed page), metadata, None) ∧
    (∀ id r, (id, r) ∈ matching ↔ store.movies db !! id = Some r ∧ passes r) ∧
    NoDup matching.*1 ∧
    page ⊆ matching ∧
    (length page ≤ Z.to_nat (PageSize filter))%nat ∧
    (length page ≤ length matching)%nat ∧
    NoDup page.*1 ∧
    Sorted (holds order) page ∧
    (page ≠ [] → Metadata.TotalRecords metadata = Z.of_nat (length matching)).
Proof.
  intros Hcol Hpage Hsize order passes.
  set (keep := fun kv : Z * store.movie_row =>
                 match store.listing_where pg title genres kv.2 with
                 | store.TTrue => true
                 | _ => false
                 end).
  set (matching := List.filter keep (map_to_list (store.movies db))).
  set (all := store.listing_rows pg title genres (sortColumn filter)
                (String.eqb (sortDirection filter) "DESC") db).
  set (page := take (Z.to_nat (limit filter)) (drop (Z.to_nat (offset filter)) all)).
  assert (Hperm : all ≡ₚ matching) by apply order_by_perm.
  assert (Hsub : page `sublist_of` all).
  { etrans; [apply sublist_take | apply sublist_drop]. }
  assert (Hnd : NoDup matching.*1).
  { apply NoDup_fst_filter, NoDup_fst_map_to_list. }
  exists page, matching. eexists. split; [by apply GetAll_accepted|].
  split_and!.
  - intros id r. unfold matching. rewrite list_elem_of_In, filter_In, <- list_elem_of_In.
    rewrite elem_of_map_to_list. unfold passes. rewrite <- listing_where_iff.
    unfold keep. cbn. destruct (store.listing_where pg title genres r); naive_solver.
  - done.
  - intros x Hx. rewrite <- Hperm. by eapply elem_of_sublist.
  - unfold page, limit. rewrite length_take. lia.
  - rewrite <- Hperm. by apply sublist_length.
  - eapply sublist_NoDup; [|by apply fmap_sublist, Hsub]. by rewrite Hperm.
  - apply Sorted_take, Sorted_drop, order_by_sorted. intros x y. apply row_le_total.
  - intros Hne. rewrite calculateMetadata_total. fold all. fold page.
    destruct page; [done|]. by rewrite Hperm.
Qed.

Lemma GetAll_filtered_witness :
  ∃ page metadata,
    MovieModel.GetAll byte_order one_movie None "Inception" (Some ["scifi"]%string)
      (mkFilters 1 20 "-title" [])
    = (Some (List.map listed page), metadata, None) ∧
    (length page ≤ 20)%nat.
Proof.
  destruct (GetAll_filtered byte_order one_movie "Inception" (Some ["scifi"]%string)
              (mkFilters 1 20 "-title" []) eq_refl ltac:(done) ltac:(done))
    as (page & matching & metadata & H & _ & _ & _ & Hlen & _).
  exists page, metadata. split; [exact H | exact Hlen].
Defined.

(* --------------------------------------------------------------------- *)
(** ** Permissions *)

Lemma Include_spec (p : Permissions) (code : string) :
  Include p code = true ↔ code ∈ p.
Proof.
  induction p as [|c p IH]; cbn.
  - split; [done|]. by intros ?%elem_of_nil.
  - destruct (String.eqb_spec c code) as [->|Hne].
    + split; [|done]. intros _. by left.
    + rewrite IH. split; [by right|]. by intros [?|?]%elem_of_cons.
Qed.

(** X16. [Include] answers true exactly for the codes held in the slice: a
    nil or empty slice includes nothing, and neither the order of the codes
    nor their repetition matters, so two slices with the same codes allow the
    same actions. *)
Theorem Include_iff_member (p : Permissions) (code : string) :
  (Include p code = true ↔ code ∈ p) ∧
  Include [] code = false ∧
  (∀ q : Permissions, (∀ c, c ∈ p ↔ c ∈ q) → Include p code = Include q code) ∧
  (∀ q : Permissions, Include (p ++ q) code = Include p code || Include q code).
Proof.
  split_and!.
  - apply Include_spec.
  - done.
  - intros q Hpq. apply eq_true_iff_eq. by rewrite !Include_spec.
  - intros q. apply eq_true_iff_eq.
    rewrite orb_true_iff, !Include_spec. apply elem_of_app.
Qed.

(* --------------------------------------------------------------------- *)
(** ** [Runtime]: what the decoder accepts *)

Lemma genSplit_nonempty (sep : string) (s : string) : ∀ skip cur,
  strings.genSplit sep skip cur s ≠ [].
Proof.
  induction s as [|c s IH]; intros skip cur; cbn; [done|].
  destruct skip; [|apply IH]. by destruct (strings.HasPrefix _ _).
Qed.

Lemma Join_cons (a sep : string) (l : list string) :
  l ≠ [] → Join (a :: l) sep = (a ++ sep ++ Join l sep)%string.
Proof. by destruct l. Qed.

(** Splitting at the spaces loses nothing. *)
Lemma Join_genSplit_space (s : string) : ∀ cur,
  Join (strings.genSplit " " 0 cur s) " " = (cur ++ s)%string.
Proof.
  induction s as [|c s IH]; intros cur.
  - cbn. by rewrite string_app_nil_r.
  - rewrite genSplit_cons, HasPrefix_space.
    destruct (Ascii.eqb_spec " " c) as [<-|Hne].
    + change (String.length " " - 1)%nat with 0%nat.
      rewrite Join_cons by apply genSplit_nonempty. by rewrite IH.
    + rewrite IH. by rewrite string_app_assoc.
Qed.

(** X17. What [UnmarshalJSON] accepts.  It returns no error exactly when the
    input unquotes to a text made of a piece that [ParseInt] reads as a
    64-bit integer, one space, and the word "mins"; the receiver then holds
    that integer converted to 32 bits.  In every other case the error is
    [ErrInvalidRuntimeFormat] and the receiver keeps its value. *)
Theorem UnmarshalJSON_accepts_exactly (r : Runtime) (jsonValue : string) :
  (∀ x, UnmarshalJSON r jsonValue = (x, None) ↔
     ∃ s m, strconv.Unquote jsonValue = Some (s ++ " mins")%string ∧
            strconv.ParseInt s 10 64 = (m, None) ∧ x = int32 m) ∧
  (∀ x e, UnmarshalJSON r jsonValue = (x, Some e) →
     x = r ∧ e = ErrInvalidRuntimeFormat) ∧
  (∀ x, UnmarshalJSON r jsonValue = (x, None) → - 2 ^ 31 ≤ x < 2 ^ 31).
Proof.
  assert (Hfwd : ∀ x, UnmarshalJSON r jsonValue = (x, None) →
            ∃ s m, strconv.Unquote jsonValue = Some (s ++ " mins")%string ∧
                   strconv.ParseInt s 10 64 = (m, None) ∧ x = int32 m).
  { intros x. unfold UnmarshalJSON.
    destruct (strconv.Unquote jsonValue) as [u|]; [|discriminate].
    pose proof (Join_genSplit_space u EmptyString) as Hjoin.
    unfold strings.Split.
    destruct (strings.genSplit " " 0 "" u) as [|a [|b [|c l]]]; try discriminate.
    cbn [length Nat.eqb negb orb nth].
    destruct (String.eqb_spec b "mins") as [->|]; [|discriminate]. cbn [negb].
    destruct (strconv.ParseInt a 10 64) as [m [e|]] eqn:Hp; [discriminate|].
    intros [= <-]. exists a, m. split_and!; try done.
    f_equal. symmetry. exact Hjoin. }
  split_and!.
  - intros x. split; [apply Hfwd|].
    intros (s & m & Hu & Hp & ->). unfold UnmarshalJSON. rewrite Hu.
    destruct (ParseInt_text s m Hp) as [_ Hs].
    change (s ++ " mins")%string with (s ++ String " " "mins")%string.
    rewrite Split_two_words by done. cbn. by rewrite Hp.
  - intros x e. unfold UnmarshalJSON.
    repeat case_match; by intros [= <- <-].
  - intros x (s & m & _ & _ & ->)%Hfwd. apply int32_range.
Qed.

(* --------------------------------------------------------------------- *)
(** ** Tokens: the plaintext carries all the random bytes *)

Lemma for_all_bytes_spec (p : Z → bool) :
  for_all_bytes p = true → ∀ c : ascii, p (byte_val c) = true.
Proof.
  unfold for_all_bytes, byte_values. rewrite forallb_forall. intros H c.
  apply H. pose proof (byte_val_range c).
  apply in_map_iff. exists (Z.to_nat (byte_val c)). split; [lia|].
  apply in_seq. lia.
Qed.

Lemma one_byte_facts_hold (c : ascii) : one_byte_facts (byte_val c) = true.
Proof.
  apply (for_all_bytes_spec one_byte_facts). by vm_compute.
Qed.

Lemma two_byte_facts_hold (c d : ascii) :
  two_byte_facts (byte_val c) (byte_val d) = true.
Proof.
  assert (H : for_all_bytes (fun a => for_all_bytes (two_byte_facts a)) = true).
  { by vm_compute. }
  apply for_all_bytes_spec. exact (for_all_bytes_spec _ H c).
Qed.

Lemma quantum_inverse (c0 c1 c2 c3 c4 : ascii) :
  unquantum (written (Z.shiftr (byte_val c0) 3))
            (written (Z.lor (base32.shl (byte_val c0) 2) (base32.shr (byte_val c1) 6)))
            (written (base32.shr (byte_val c1) 1))
            (written (Z.lor (base32.shl (byte_val c1) 4) (base32.shr (byte_val c2) 4)))
            (written (Z.lor (base32.shl (byte_val c2) 1) (Z.shiftr (byte_val c3) 7)))
            (written (base32.shr (byte_val c3) 2))
            (written (Z.lor (base32.shl (byte_val c3) 3) (Z.shiftr (byte_val c4) 5)))
            (written (Z.land (byte_val c4) 0x1F))
  = [byte_val c0; byte_val c1; byte_val c2; byte_val c3; byte_val c4].
Proof.
  unfold unquantum.
  pose proof (one_byte_facts_hold c0) as F0. pose proof (one_byte_facts_hold c1) as F1.
  pose proof (one_byte_facts_hold c2) as F2. pose proof (one_byte_facts_hold c3) as F3.
  pose proof (one_byte_facts_hold c4) as F4.
  pose proof (two_byte_facts_hold c0 c1) as G01. pose proof (two_byte_facts_hold c1 c2) as G12.
  pose proof (two_byte_facts_hold c2 c3) as G23. pose proof (two_byte_facts_hold c3 c4) as G34.
  unfold one_byte_facts in F0, F1, F2, F3, F4.
  unfold two_byte_facts in G01, G12, G23, G34. cbv zeta in G01, G12, G23, G34.
  repeat match goal with
         | H : _ && _ = true |- _ => apply andb_true_iff in H as [H ?]
         end.
  repeat match goal with
         | H : (_ =? _) = true |- _ => apply Z.eqb_eq in H
         end.
  repeat f_equal; congruence.
Qed.

(** Decoding undoes encoding. *)
Lemma base32_decode_encode (src : string) :
  base32_decode (base32.EncodeToString None src) = src.
Proof.
  induction src as [|a|a b|a b c|a b c d|a b c d e rest IH] using string_ind5.
  - reflexivity.
  - transitivity (bytes_of 1 [byte_val a; byte_val zero; byte_val zero; byte_val zero;
                              byte_val zero]).
    + rewrite <- (quantum_inverse a zero zero zero zero). reflexivity.
    + cbn [bytes_of firstn List.map string_of_list_ascii]. by rewrite !byte_chr_val.
  - transitivity (bytes_of 2 [byte_val a; byte_val b; byte_val zero; byte_val zero;
                              byte_val zero]).
    + rewrite <- (quantum_inverse a b zero zero zero). reflexivity.
    + cbn [bytes_of firstn List.map string_of_list_ascii]. by rewrite !byte_chr_val.
  - transitivity (bytes_of 3 [byte_val a; byte_val b; byte_val c; byte_val zero;
                              byte_val zero]).
    + rewrite <- (quantum_inverse a b c zero zero). reflexivity.
    + cbn [bytes_of firstn List.map string_of_list_ascii]. by rewrite !byte_chr_val.
  - transitivity (bytes_of 4 [byte_val a; byte_val b; byte_val c; byte_val d;
                              byte_val zero]).
    + rewrite <- (quantum_inverse a b c d zero). reflexivity.
    + cbn [bytes_of firstn List.map string_of_list_ascii]. by rewrite !byte_chr_val.
  - transitivity (bytes_of 5 [byte_val a; byte_val b; byte_val c; byte_val d; byte_val e]
                  ++ base32_decode (base32.EncodeToString None rest))%string.
    + rewrite <- (quantum_inverse a b c d e). reflexivity.
    + rewrite IH. cbn [bytes_of firstn List.map string_of_list_ascii].
      by rewrite !byte_chr_val.
Qed.

(** X18. The token plaintext carries all the random bytes.  The base-32
    encoder without padding is one-to-one on byte strings of every length,
    so two tokens generated from different sequences of 16 random bytes
    never have the same plaintext. *)
Theorem plaintext_determines_random_bytes :
  (∀ s t, base32.EncodeToString None s = base32.EncodeToString None t → s = t) ∧
  (∀ now now' rnd rnd' userID userID' ttl ttl' scope scope' tok tok',
     generateToken now rnd userID ttl scope = (Some tok, None) →
     generateToken now' rnd' userID' ttl' scope' = (Some tok', None) →
     PlainText tok = PlainText tok' →
     fst (rand.Read rnd 16) = fst (rand.Read rnd' 16) ∧ Hash tok = Hash tok').
Proof.
  assert (Hinj : ∀ s t, base32.EncodeToString None s = base32.EncodeToString None t → s = t).
  { intros s t H. apply (f_equal base32_decode) in H.
    by rewrite !base32_decode_encode in H. }
  split; [done|].
  intros now now' rnd rnd' userID userID' ttl ttl' scope scope' tok tok'
    (_ & _ & ->)%generateToken_inv (_ & _ & ->)%generateToken_inv.
  cbn [PlainText Hash]. intros H. split; [by apply Hinj|]. by rewrite H.
Qed.

(** X19. Pages tile the listing.  For one store, one title and genre filter
    and one sort field, the stored rows that pass both conditions form a
    single list, without a repeated id and in the order of the sort, of
    which every page is a window: page [p] of size [n] (with [p * n] within
    the 64-bit integers) is the rows from position [(p - 1) * n] up to
    [p * n], and when it is not empty its [totalRecords] is the length of
    that list.  Hence no movie is on two pages, and page [p] followed by
    page [p + 1] is the window of [2 * n] rows that starts where page [p]
    starts. *)
Theorem GetAll_pages_tile
    (pg : store.engine) (db : store.Database) (title : string) (genres : slice string)
    (sort : string) (safelist : list string) (n : Z) :
  store.is_column (sortColumn (mkFilters 1 n sort safelist)) = true → 0 ≤ n →
  let passes (r : store.movie_row) :=
    (title = EmptyString ∨ store.ts_match pg (store.r_title r) title = true) ∧
    ∃ g, genres = Some g ∧
         (g = [] ∨ ∃ rg, store.r_genres r = Some rg ∧ ∀ x, x ∈ g → x ∈ rg) in
  ∃ all : list (Z * store.movie_row),
    (∀ id r, (id, r) ∈ all ↔ store.movies db !! id = Some r ∧ passes r) ∧
    NoDup all.*1 ∧
    Sorted (holds (store.row_le pg (sortColumn (mkFilters 1 n sort safelist))
                     (String.eqb (sortDirection (mkFilters 1 n sort safelist)) "DESC"))) all ∧
    (∀ p, 1 ≤ p → p * n < 2 ^ 63 →
       let page := take (Z.to_nat n) (drop (Z.to_nat ((p - 1) * n)) all) in
       let next := take (Z.to_nat n) (drop (Z.to_nat (p * n)) all) in
       (∃ metadata,
          MovieModel.GetAll pg db None title genres (mkFilters p n sort safelist)
          = (Some (List.map listed page), metadata, None) ∧
          (page ≠ [] → Metadata.TotalRecords metadata = Z.of_nat (length all))) ∧
       page ++ next = take (Z.to_nat (2 * n)) (drop (Z.to_nat ((p - 1) * n)) all) ∧
       NoDup (page ++ next).*1).
Proof.
  intros Hcol Hn passes.
  set (keep := fun kv : Z * store.movie_row =>
                 match store.listing_where pg title genres kv.2 with
                 | store.TTrue => true
                 | _ => false
                 end).
  set (all := store.listing_rows pg title genres (sortColumn (mkFilters 1 n sort safelist))
                (String.eqb (sortDirection (mkFilters 1 n sort safelist)) "DESC") db).
  assert (Hperm : all ≡ₚ List.filter keep (map_to_list (store.movies db)))
    by apply order_by_perm.
  assert (Hnd : NoDup all.*1).
  { rewrite Hperm. apply NoDup_fst_filter, NoDup_fst_map_to_list. }
  exists all. split_and!.
  - intros id r. rewrite Hperm, list_elem_of_In, filter_In, <- list_elem_of_In.
    rewrite elem_of_map_to_list. unfold passes. rewrite <- listing_where_iff.
    unfold keep. cbn. destruct (store.listing_where pg title genres r); naive_solver.
  - done.
  - apply order_by_sorted. intros x y. apply row_le_total.
  - intros p Hp _ page next.
    assert (Htile : page ++ next
                    = take (Z.to_nat (2 * n)) (drop (Z.to_nat ((p - 1) * n)) all)).
    { unfold page, next.
      replace (Z.to_nat (p * n)) with (Z.to_nat ((p - 1) * n) + Z.to_nat n)%nat by nia.
      replace (Z.to_nat (2 * n)) with (Z.to_nat n + Z.to_nat n)%nat by lia.
      rewrite <- drop_drop. generalize (drop (Z.to_nat ((p - 1) * n)) all). intros l.
      by rewrite take_take_drop. }
    split_and!.
    + eexists. split.
      * by rewrite (GetAll_accepted pg db title genres (mkFilters p n sort safelist)).
      * intros Hne. rewrite calculateMetadata_total. cbn [PageSize Page sortColumn Sort].
        unfold limit, offset. cbn [PageSize Page].
        change (match page with
                | [] => 0
                | _ :: _ => Z.of_nat (length all)
                end = Z.of_nat (length all)).
        by destruct page.
    + done.
    + rewrite Htile. eapply sublist_NoDup; [exact Hnd|]. apply fmap_sublist.
      etrans; [apply sublist_take | apply sublist_drop].
Qed.

Lemma GetAll_pages_tile_witness :
  ∃ all : list (Z * store.movie_row),
    (1, inception_row) ∈ all ∧
    ∃ metadata,
      MovieModel.GetAll byte_order one_movie None "" (Some []) (mkFilters 1 20 "id" [])
      = (Some (List.map listed (take 20 (drop 0 all))), metadata, None).
Proof.
  destruct (GetAll_pages_tile byte_order one_movie "" (Some []) "id" [] 20
              eq_refl ltac:(done)) as (all & Hin & _ & _ & H).
  exists all. split.
  - apply Hin. split; [reflexivity|]. split; [by left|]. exists []. split; [done|by left].
  - destruct (proj1 (H 1 ltac:(done) ltac:(done))) as (metadata & Hget & _).
    by exists metadata.
Defined.

(* --------------------------------------------------------------------- *)
(** ** Permissions: granting and reading back *)

Lemma append_each {A} (l : list A) : ∀ acc,
  fold_left (fun permissions permission => permissions ++ [permission]) l acc = acc ++ l.
Proof.
  induction l as [|x l IH]; intros acc; cbn; [by rewrite app_nil_r|].
  by rewrite IH, <- app_assoc.
Qed.

Lemma select_codes_spec (t : permission_tables) (userID : Z) (code : string) :
  code ∈ select_codes userID t ↔
  userID ∈ pt_users t ∧
  ∃ id, (id, code) ∈ pt_permissions t ∧ (userID, id) ∈ pt_users_permissions t.
Proof.
  unfold select_codes. rewrite list_elem_of_bind. split.
  - intros ([pid c] & Hin & Hp). apply list_elem_of_bind in Hin as ([uid pid'] & Hin & Hup).
    apply list_elem_of_bind in Hin as (u & Hin & Hu). cbn in Hin.
    destruct (Z.eqb_spec pid' pid) as [E1|]; [|by apply elem_of_nil in Hin].
    destruct (Z.eqb_spec uid u) as [E2|]; [|by apply elem_of_nil in Hin].
    destruct (Z.eqb_spec u userID) as [E3|]; [|by apply elem_of_nil in Hin].
    cbn in Hin. apply list_elem_of_singleton in Hin. subst. eauto.
  - intros (Hu & id & Hp & Hup). exists (id, code). split; [|done].
    apply list_elem_of_bind. exists (userID, id). split; [|done].
    apply list_elem_of_bind. exists userID. split; [|done]. cbn.
    rewrite !Z.eqb_refl. cbn. by apply list_elem_of_singleton.
Qed.

Lemma keyed_lookup_unique {A} (l : list (Z * A)) (k : Z) (x y : A) :
  NoDup l.*1 → (k, x) ∈ l → (k, y) ∈ l → x = y.
Proof.
  induction l as [|[k' z] l IH]; cbn; intros Hnd Hx Hy; [by apply elem_of_nil in Hx|].
  apply NoDup_cons in Hnd as [Hk Hnd].
  apply elem_of_cons in Hx as [Hx|Hx], Hy as [Hy|Hy].
  - congruence.
  - injection Hx as -> ->. destruct Hk. apply list_elem_of_fmap. by exists (k', y).
  - injection Hy as -> ->. destruct Hk. apply list_elem_of_fmap. by exists (k', x).
  - by apply IH.
Qed.

(** X20. Granting and reading back.  Where the ids of the permissions are
    distinct and [AddForUser] returns no error, [GetAllForUser] afterwards
    includes a code for a user exactly when it did before, or the user is
    the one granted to, is among the users, and the code is one of the codes
    passed that names a permission.  So a code that names no permission is
    ignored without an error, a grant to an id that is no user's is never
    read back, and what every other user holds is unchanged. *)
Theorem AddForUser_then_GetAllForUser
    (t : permission_tables) (fault : option store.fault) (userID : Z) (codes : slice string)
    (t' : permission_tables) :
  NoDup (pt_permissions t).*1 →
  PermissionModel.AddForUser t fault userID codes = (t', None) →
  ∀ u code,
    Include (PermissionModel.GetAllForUser t' None u).1 code = true ↔
    Include (PermissionModel.GetAllForUser t None u).1 code = true ∨
    (u = userID ∧ userID ∈ pt_users t ∧ code ∈ elems codes ∧
     ∃ id, (id, code) ∈ pt_permissions t).
Proof.
  intros Hkey. unfold PermissionModel.AddForUser.
  destruct fault as [[e|e]|]; [discriminate..|].
  intros [= <-] u code. unfold PermissionModel.GetAllForUser. cbn [fst].
  rewrite !append_each, !app_nil_l, !Include_spec, !select_codes_spec. cbn.
  split.
  - intros (Hu & id & Hp & Hup). apply elem_of_app in Hup as [Hup|Hnew].
    + left. eauto.
    + right. apply list_elem_of_bind in Hnew as ([pid c] & Hin & Hp'). cbn in Hin.
      destruct (existsb (String.eqb c) (elems codes)) eqn:E; [|by apply elem_of_nil in Hin].
      apply list_elem_of_singleton in Hin. injection Hin as -> ->.
      apply existsb_exists in E as (c' & Hc' & ->%String.eqb_eq).
      rewrite (keyed_lookup_unique _ _ _ _ Hkey Hp Hp').
      split_and!; try done; [by apply list_elem_of_In|eauto].
  - intros [(Hu & id & Hp & Hup)|(-> & Hu & Hc & id & Hp)].
    + split; [done|]. exists id. split; [done|]. apply elem_of_app. by left.
    + split; [done|]. exists id. split; [done|]. apply elem_of_app. right.
      apply list_elem_of_bind. exists (id, code). split; [|done]. cbn.
      assert (E : existsb (String.eqb code) (elems codes) = true).
      { apply existsb_exists. exists code. split; [by apply list_elem_of_In|].
        apply String.eqb_refl. }
      rewrite E. by apply list_elem_of_singleton.
Qed.

Lemma AddForUser_then_GetAllForUser_witness :
  ∃ t',
    PermissionModel.AddForUser sample_tables None 7
      (Some ["movies:write"; "movies:admin"]%string) = (t', None) ∧
    Include (PermissionModel.GetAllForUser t' None 7).1 "movies:write" = true ∧
    Include (PermissionModel.GetAllForUser t' None 7).1 "movies:admin" = false ∧
    Include (PermissionModel.GetAllForUser t' None 8).1 "movies:write" = false.
Proof.
  eexists. split; [reflexivity|].
  assert (Hkey : NoDup (pt_permissions sample_tables).*1).
  { cbn. repeat constructor; set_solver. }
  pose proof (AddForUser_then_GetAllForUser sample_tables None 7
                (Some ["movies:write"; "movies:admin"]%string) _ Hkey eq_refl) as H.
  split_and!; [|reflexivity|reflexivity].
  apply H. right. split_and!; [done|set_solver|set_solver|].
  exists 2. set_solver.
Defined.
